(** * Linker_pattern: a composite password generator

    Shallow embedding of [src/main.cpp] and the properties of its
    natural-language specification.

    Conventions of the embedding.
    - A [size_t] is an integer in [0, 2^64); every subtraction the source
      performs on such values is reduced with [to_size_t].  The bounds of
      [std::uniform_int_distribution<>] are [int]s: the conversion of the
      last index of the alphabet is [to_int].
    - A [std::string] is a list of characters.  Its size is a [size_t], so
      it never holds more than [max_size = SIZE_MAX] characters (the largest
      value the type leaves to an implementation; memory is not modelled):
      an operation that would make it longer throws [length_error].
    - The random device and the Mersenne twister seeded from it are an
      oracle, an infinite sequence of raw integers.  A draw of the
      distribution over [0, b] reduces the next raw integer into that range,
      so a theorem quantified over the oracle holds for every run.
    - A violated precondition of the library (a distribution whose bounds
      are inverted, an index beyond the end of a string) is [Undefined].
    - The objects held through [std::shared_ptr] form finite trees: no
      pointer is null and no composite is registered inside itself. *)

From Stdlib Require Import ZArith NArith List Ascii String Lia Bool.
From Stdlib Require Import Permutation.
Set Warnings "-register-all".
Import ListNotations.
Local Open Scope Z_scope.

(** ** Machine integers *)

Definition SIZE_MAX : Z := 2 ^ 64 - 1.

Definition to_size_t (z : Z) : Z := z mod 2 ^ 64.

Definition to_int (z : Z) : Z := (z + 2 ^ 31) mod 2 ^ 32 - 2 ^ 31.

(** ** Exceptions and outcomes *)

Inductive exception : Type :=
| out_of_range (what : string)
| runtime_error (what : string)
| length_error.

Inductive outcome (A : Type) : Type :=
| Ret (a : A)
| Throw (e : exception)
| Undefined.

Arguments Ret {A} a.
Arguments Throw {A} e.
Arguments Undefined {A}.

Definition bind {A B : Type} (m : outcome A) (k : A -> outcome B) : outcome B :=
  match m with
  | Ret a => k a
  | Throw e => Throw e
  | Undefined => Undefined
  end.

Notation "x <- m ;; k" := (bind m (fun x => k))
  (at level 61, m at next level, right associativity).
Notation "' p <- m ;; k" := (bind m (fun x => match x with p => k end))
  (at level 61, p pattern, m at next level, right associativity).

(** ** std::string *)

Definition str : Type := list ascii.

Definition size (s : str) : Z := Z.of_nat (List.length s).

Definition max_size : Z := SIZE_MAX.

(** [chars[i]]: the character at [i], the null character at [i = size()],
    undefined beyond. *)
Definition at_index (chars : str) (i : Z) : outcome ascii :=
  if (0 <=? i) && (i <? size chars) then
    match nth_error chars (Z.to_nat i) with
    | Some c => Ret c
    | None => Undefined
    end
  else if i =? size chars then Ret Ascii.zero
  else Undefined.

Definition push_back (s : str) (c : ascii) : outcome str :=
  if size s <? max_size then Ret (s ++ [c]) else Throw length_error.

Definition append (s t : str) : outcome str :=
  if size s + size t <=? max_size then Ret (s ++ t) else Throw length_error.

(** ** The random source *)

Definition entropy : Type := nat -> Z.

(** [distribution(gen)] for [uniform_int_distribution<>(0, b)]. *)
Definition draw (b : Z) (gen : entropy) : Z * entropy :=
  (gen 0%nat mod (b + 1), fun n => gen (S n)).

(** ** PASSWORD DEFAULT LENGTH *)

Module password_default_length.

(** The static member [len]. *)
Definition state : Type := Z.

Definition initial : state := 10.

(** The argument of the call is converted to the [size_t] parameter
    [new_l]. *)
Definition set_length (arg : Z) (len : state) : outcome unit * state :=
  let new_l := to_size_t arg in
  if new_l <=? 0
  then (Throw (out_of_range "Password default length: invalid length value"),
        len)
  else (Ret tt, new_l).

Definition length (len : state) : Z := len.

End password_default_length.

(** ** FUNCTION-GENERATOR OF RANDOM STRING *)

(** The upper bound of [distribution(0, chars.length() - 1)]. *)
Definition distribution_max (chars : str) : Z :=
  to_int (to_size_t (size chars - 1)).

(** [chars[distribution(gen)]] *)
Definition pick (chars : str) (gen : entropy) : outcome (ascii * entropy) :=
  let (i, gen) := draw (distribution_max chars) gen in
  c <- at_index chars i ;;
  Ret (c, gen).

(** One turn of the [for] loop. *)
Definition random_string_step (chars : str) (st : outcome (str * entropy))
  : outcome (str * entropy) :=
  '(rand_str, gen) <- st ;;
  '(c, gen) <- pick chars gen ;;
  rand_str <- push_back rand_str c ;;
  Ret (rand_str, gen).

Definition random_string (len : Z) (chars : str) (rd : entropy)
  : outcome (str * entropy) :=
  if distribution_max chars <? 0 then Undefined
  else
    N.iter (Z.to_N (to_size_t (len - 1))) (random_string_step chars)
      ('(c, gen) <- pick chars rd ;; Ret ([c], gen)).

(** ** The generator classes *)

(** [plain_generator] is an object of the class [password_generator] itself,
    [basic_generator] one of [basic_password_generator]; both classes can be
    instantiated. *)
Inductive password_generator : Type :=
| plain_generator
| basic_generator (len : Z)
| digit (len : Z)
| symbol (len : Z)
| upper_letter (len : Z)
| lower_letter (len : Z)
| composite (generators : list password_generator).

Definition allowed_chars (g : password_generator) : outcome str :=
  match g with
  | digit _ => Ret (list_ascii_of_string "0123456789")
  | symbol _ => Ret (list_ascii_of_string "-/.;#@%)*")
  | upper_letter _ => Ret (list_ascii_of_string "ABCDEFGHKLMNIOPRST")
  | lower_letter _ => Ret (list_ascii_of_string "abcdefghklmnioprst")
  | _ => Throw (runtime_error "password_generator: can't get allowed_chars.")
  end.

(** The lambda [find_max] of [composite_password_generator::length], for the
    running maximum [len] and the value of [p->length()]. *)
Definition find_max (len : outcome Z) (p_length : outcome Z) : outcome Z :=
  len <- len ;;
  l <- p_length ;;
  if l >? len then p_length else Ret len.

Fixpoint length (g : password_generator) : outcome Z :=
  match g with
  | plain_generator =>
      Throw (runtime_error "password_generator: can't return length.")
  | basic_generator len | digit len | symbol len
  | upper_letter len | lower_letter len => Ret len
  | composite generators =>
      fold_left (fun len p => find_max len (length p)) generators (Ret 0)
  end.

Definition add (g ptr : password_generator) : outcome password_generator :=
  match g with
  | composite generators => Ret (composite (generators ++ [ptr]))
  | _ => Throw (runtime_error "password_generator: can't add.")
  end.

(** The first loop of [composite_password_generator::generate]:
    [generated_strings.push_back(generator->generate())]. *)
Definition generate_each {A : Type}
  (generate : A -> entropy -> outcome (str * entropy))
  : list A -> entropy -> outcome (list str * entropy) :=
  fix each (generators : list A) (gen : entropy) :=
    match generators with
    | [] => Ret ([], gen)
    | p :: rest =>
        '(s, gen) <- generate p gen ;;
        '(generated_strings, gen) <- each rest gen ;;
        Ret (s :: generated_strings, gen)
    end.

(** [for str: concatenated_string.append(str)] *)
Definition concatenate (generated_strings : list str) : outcome str :=
  fold_left
    (fun acc s => concatenated_string <- acc ;; append concatenated_string s)
    generated_strings (Ret []).

(** [for str: password.append(random_string(1, str))] *)
Definition append_samples (generated_strings : list str)
  (password : str) (gen : entropy) : outcome (str * entropy) :=
  fold_left
    (fun acc s =>
       '(password, gen) <- acc ;;
       '(c, gen) <- random_string 1 s gen ;;
       password <- append password c ;;
       Ret (password, gen))
    generated_strings (Ret (password, gen)).

Definition too_short : exception :=
  out_of_range "composite password generator: too short password".

Fixpoint generate (g : password_generator) (gen : entropy)
  : outcome (str * entropy) :=
  match g with
  | plain_generator =>
      Throw (runtime_error "password_generator: can't generate.")
  | basic_generator len | digit len | symbol len
  | upper_letter len | lower_letter len =>
      chars <- allowed_chars g ;;
      random_string len chars gen
  | composite generators =>
      pas_len <- length g ;;
      '(generated_strings, gen) <- generate_each generate generators gen ;;
      let k := Z.of_nat (List.length generated_strings) in
      if pas_len <=? k
      then Throw too_short
      else
        concatenated_string <- concatenate generated_strings ;;
        '(password, gen) <-
          random_string (to_size_t (pas_len - k)) concatenated_string gen ;;
        append_samples generated_strings password gen
  end.

(** ** Constructors, with their default arguments

    [None] is a call without the argument [l]; an explicit argument is
    converted to [size_t]. *)

Definition constructor_length (l : option Z) (default : Z) : Z :=
  match l with
  | Some l => to_size_t l
  | None => default
  end.

Definition basic_password_generator (l : option Z)
  (st : password_default_length.state) : password_generator :=
  basic_generator (constructor_length l (password_default_length.length st)).

Definition digit_generator (l : option Z)
  (st : password_default_length.state) : password_generator :=
  digit (constructor_length l (password_default_length.length st)).

Definition symbol_generator (l : option Z)
  (st : password_default_length.state) : password_generator :=
  symbol (constructor_length l 12).

Definition upper_letter_generator (l : option Z)
  (st : password_default_length.state) : password_generator :=
  upper_letter (constructor_length l (password_default_length.length st)).

Definition lower_letter_generator (l : option Z)
  (st : password_default_length.state) : password_generator :=
  lower_letter (constructor_length l 12).

Definition composite_password_generator : password_generator := composite [].

(** ** The reference scenario of [main] *)

Definition add_all (g : password_generator) (ptrs : list password_generator)
  : outcome password_generator :=
  fold_left (fun acc ptr => g <- acc ;; add g ptr) ptrs (Ret g).

Definition main_generator : outcome password_generator :=
  let st := snd (password_default_length.set_length 16
                   password_default_length.initial) in
  let cond1 := digit_generator None st in
  let cond2 := symbol_generator None st in
  let cond3 := upper_letter_generator None st in
  let cond4 := lower_letter_generator None st in
  add_all composite_password_generator [cond1; cond2; cond3; cond4].

(** ** Vocabulary of the properties *)

(** The alphabets whose last index fits the [int] bound of the
    distribution. *)
Definition alphabet_ok (chars : str) : Prop := 1 <= size chars <= 2 ^ 31.

(** The spec's words: the maximum of the children's lengths, [0] when there
    is no child. *)
Definition max_length (lengths : list Z) : Z := fold_right Z.max 0 lengths.

Definition sum_lengths (lengths : list Z) : Z := fold_right Z.add 0 lengths.

(** The four policies of the spec: digit, symbol, upper letter, lower
    letter. *)
Definition concrete_policy (g : password_generator) : bool :=
  match g with
  | digit _ | symbol _ | upper_letter _ | lower_letter _ => true
  | _ => false
  end.

(** What a concrete policy [p] of length at least [1] returns: a string of
    [length()] characters of [allowed_chars()]. *)
Definition fragment_of (p : password_generator) (s : str) : Prop :=
  exists l chars,
    length p = Ret l /\ size s = l
    /\ allowed_chars p = Ret chars /\ Forall (fun c => In c chars) s.

(** The errors by which this program reports a bad argument or an
    unsupported call. *)
Definition raises_input_error {A : Type} (r : outcome A) : bool :=
  match r with
  | Throw (out_of_range _) | Throw (runtime_error _) => true
  | _ => false
  end.

(** The value of a call that returns, without the state of the oracle. *)
Definition returned {A : Type} (r : outcome (A * entropy)) : option A :=
  match r with
  | Ret (a, _) => Some a
  | _ => None
  end.

(** An oracle and a long alphabet for the examples. *)
Definition sample_entropy : entropy := fun n => 7 * Z.of_nat n + 3.

Definition long_alphabet : str := repeat "a"%char (Z.to_nat (2 ^ 31 + 1)).

(** ** Vocabulary of the further properties *)

(** The generators of a tree that are not composites, in registration
    order. *)
Fixpoint leaves (g : password_generator) : list password_generator :=
  match g with
  | composite generators => flat_map leaves generators
  | _ => [g]
  end.

Definition is_plain (g : password_generator) : bool :=
  match g with
  | plain_generator => true
  | _ => false
  end.

(** The member [len] of a [basic_password_generator]. *)
Definition leaf_length (g : password_generator) : Z :=
  match g with
  | basic_generator len | digit len | symbol len
  | upper_letter len | lower_letter len => len
  | _ => 0
  end.

Definition alphabet_of (g : password_generator) : str :=
  match allowed_chars g with
  | Ret chars => chars
  | _ => []
  end.

(** The characters allowed by some policy of the tree. *)
Definition characters (g : password_generator) : str :=
  flat_map alphabet_of (leaves g).

(** The exception of [password_generator::length]. *)
Definition cannot_return_length : exception :=
  runtime_error "password_generator: can't return length.".



(** The character that the [j]-th raw value of the oracle selects. *)
Definition drawn (chars : str) (rd : entropy) (j : nat) : ascii :=
  nth (Z.to_nat (rd j mod size chars)) chars Ascii.zero.


(** Calls of [set_length], one after the other; a call that throws is
    caught and the next one is made. *)
Definition set_lengths (args : list Z) (st : password_default_length.state)
  : password_default_length.state :=
  fold_left (fun st arg => snd (password_default_length.set_length arg st))
    args st.

(** What [main] builds, for a default length [n] in place of its [16]; the
    exception of [set_length] is not caught. *)
Definition main_scenario (n : Z) : outcome password_generator :=
  let (r, st) := password_default_length.set_length n
                   password_default_length.initial in
  _ <- r ;;
  let cond1 := digit_generator None st in
  let cond2 := symbol_generator None st in
  let cond3 := upper_letter_generator None st in
  let cond4 := lower_letter_generator None st in
  add_all composite_password_generator [cond1; cond2; cond3; cond4].

(** The arguments that [set_length] accepts, as it stores them. *)
Definition accepted (args : list Z) : list Z :=
  filter (fun new_l => negb (new_l =? 0)) (map to_size_t args).

Definition cannot_add : exception :=
  runtime_error "password_generator: can't add.".

(** * Properties *)

(** ** Integer conversions *)

Lemma to_size_t_small (z : Z) : 0 <= z <= SIZE_MAX -> to_size_t z = z.
Proof.
  unfold to_size_t, SIZE_MAX. intros H. apply Z.mod_small. lia.
Qed.

Lemma to_size_t_underflow : to_size_t (0 - 1) = SIZE_MAX.
Proof. reflexivity. Qed.

Lemma to_int_small (z : Z) : 0 <= z < 2 ^ 31 -> to_int z = z.
Proof.
  unfold to_int. intros H. rewrite Z.mod_small; lia.
Qed.

Lemma size_nonneg (s : str) : 0 <= size s.
Proof. unfold size. lia. Qed.

Lemma size_app (s t : str) : size (s ++ t) = size s + size t.
Proof. unfold size. rewrite length_app. lia. Qed.

Lemma size_nil_iff (s : str) : size s = 0 <-> s = [].
Proof.
  unfold size. destruct s; simpl; split; intros H; try reflexivity; try lia.
  discriminate.
Qed.

(** ** random_string *)

Lemma distribution_max_ok (chars : str) :
  alphabet_ok chars -> distribution_max chars = size chars - 1.
Proof.
  unfold alphabet_ok, distribution_max. intros H.
  rewrite to_size_t_small by (unfold SIZE_MAX; lia).
  apply to_int_small. lia.
Qed.

Lemma at_index_inside (chars : str) (i : Z) :
  0 <= i < size chars -> exists c, at_index chars i = Ret c /\ In c chars.
Proof.
  intros H. unfold at_index.
  replace ((0 <=? i) && (i <? size chars)) with true
    by (symmetry; apply andb_true_iff; split; [apply Z.leb_le | apply Z.ltb_lt]; lia).
  destruct (nth_error chars (Z.to_nat i)) as [c|] eqn:E.
  - exists c. split; [reflexivity | eapply nth_error_In; eassumption].
  - apply nth_error_None in E. unfold size in H. lia.
Qed.

Lemma at_index_no_throw (chars : str) (i : Z) (e : exception) :
  at_index chars i <> Throw e.
Proof.
  unfold at_index.
  destruct ((0 <=? i) && (i <? size chars)).
  - destruct (nth_error chars (Z.to_nat i)); discriminate.
  - destruct (i =? size chars); discriminate.
Qed.

Lemma pick_ok (chars : str) (gen : entropy) :
  alphabet_ok chars ->
  exists c gen', pick chars gen = Ret (c, gen') /\ In c chars.
Proof.
  intros H. unfold pick, draw.
  rewrite (distribution_max_ok chars H).
  destruct (at_index_inside chars (gen 0%nat mod (size chars - 1 + 1))) as (c & Hc & Hin).
  - unfold alphabet_ok in H.
    pose proof (Z.mod_pos_bound (gen 0%nat) (size chars - 1 + 1)). lia.
  - exists c. eexists. rewrite Hc. simpl. split; [reflexivity | exact Hin].
Qed.

Lemma pick_no_throw (chars : str) (gen : entropy) (e : exception) :
  pick chars gen <> Throw e.
Proof.
  unfold pick, draw.
  destruct (at_index chars (gen 0%nat mod (distribution_max chars + 1))) eqn:E;
    simpl; try discriminate.
  exfalso. eapply at_index_no_throw; eassumption.
Qed.

(** The loop of [random_string], started from a string [s]: [n] turns append
    [n] characters of the alphabet when the string can hold them. *)
Lemma random_string_loop_ok (chars : str) (n : N) :
  alphabet_ok chars ->
  forall (s : str) (gen : entropy),
    size s + Z.of_N n <= max_size ->
    exists t gen',
      N.iter n (random_string_step chars) (Ret (s, gen)) = Ret (s ++ t, gen')
      /\ size t = Z.of_N n
      /\ Forall (fun c => In c chars) t.
Proof.
  intros Hok. induction n as [|n IH] using N.peano_ind; intros s gen Hsz.
  - exists [], gen. simpl. rewrite app_nil_r. repeat split. constructor.
  - rewrite N.iter_succ.
    destruct (IH s gen) as (t & gen1 & E & Ht & Hin); [lia|].
    rewrite E. unfold random_string_step at 1. simpl.
    destruct (pick_ok chars gen1 Hok) as (c & gen2 & Ec & Hc).
    rewrite Ec. simpl. unfold push_back.
    replace (size (s ++ t) <? max_size) with true
      by (symmetry; apply Z.ltb_lt; rewrite size_app; lia).
    simpl. exists (t ++ [c]), gen2. rewrite app_assoc. split; [reflexivity|].
    split.
    + rewrite size_app. unfold size at 2. simpl. lia.
    + apply Forall_app. split; [exact Hin | repeat constructor; exact Hc].
Qed.

(** ... and throw [length_error] on the turn that finds the string full. *)
Lemma random_string_loop_full (chars : str) (n : N) :
  alphabet_ok chars ->
  forall (s : str) (gen : entropy),
    size s <= max_size ->
    max_size < size s + Z.of_N n ->
    N.iter n (random_string_step chars) (Ret (s, gen)) = Throw length_error.
Proof.
  intros Hok. induction n as [|n IH] using N.peano_ind; intros s gen Hs Hsz.
  - lia.
  - rewrite N.iter_succ.
    destruct (Z_le_gt_dec (size s + Z.of_N n) max_size) as [Hle|Hgt].
    + destruct (random_string_loop_ok chars n Hok s gen Hle)
        as (t & gen1 & E & Ht & _).
      rewrite E. unfold random_string_step. simpl.
      destruct (pick_ok chars gen1 Hok) as (c & gen2 & Ec & _).
      rewrite Ec. simpl. unfold push_back.
      replace (size (s ++ t) <? max_size) with false
        by (symmetry; apply Z.ltb_ge; rewrite size_app; lia).
      reflexivity.
    + rewrite (IH s gen Hs) by lia. reflexivity.
Qed.

(** Whatever the alphabet, a loop that ends with a string was started with a
    string and only appended to it. *)
Lemma random_string_loop_ret (chars : str) (n : N)
  (x : outcome (str * entropy)) (s : str) (gen : entropy) :
  N.iter n (random_string_step chars) x = Ret (s, gen) ->
  exists s0 gen0 t, x = Ret (s0, gen0) /\ s = s0 ++ t.
Proof.
  revert s gen. induction n as [|n IH] using N.peano_ind; intros s gen H.
  - simpl in H. exists s, gen, []. rewrite app_nil_r. auto.
  - rewrite N.iter_succ in H. unfold random_string_step at 1 in H.
    destruct (N.iter n (random_string_step chars) x) as [[s1 gen1]| |] eqn:E;
      simpl in H; try discriminate.
    destruct (IH s1 gen1 eq_refl) as (s0 & gen0 & t & Hx & Hs1).
    destruct (pick chars gen1) as [[c gen2]| |]; simpl in H; try discriminate.
    destruct (push_back s1 c) as [s2| |] eqn:Ep; simpl in H; try discriminate.
    unfold push_back in Ep. destruct (size s1 <? max_size); try discriminate.
    inversion Ep; inversion H; subst.
    exists s0, gen0, (t ++ [c]). rewrite app_assoc. auto.
Qed.

(** The only exception the loop adds is [length_error]. *)
Lemma random_string_loop_throw (chars : str) (n : N)
  (x : outcome (str * entropy)) (e : exception) :
  N.iter n (random_string_step chars) x = Throw e ->
  x = Throw e \/ e = length_error.
Proof.
  induction n as [|n IH] using N.peano_ind; intros H.
  - left. exact H.
  - rewrite N.iter_succ in H. unfold random_string_step at 1 in H.
    destruct (N.iter n (random_string_step chars) x) as [[s1 gen1]| |] eqn:E;
      simpl in H; try discriminate.
    + destruct (pick chars gen1) as [[c gen2]| |] eqn:Ec; simpl in H;
        try discriminate.
      * unfold push_back in H. destruct (size s1 <? max_size); simpl in H;
          try discriminate.
        right. congruence.
      * exfalso. eapply pick_no_throw. eassumption.
    + apply IH. congruence.
Qed.

Lemma random_string_ok (len : Z) (chars : str) (rd : entropy) :
  1 <= len <= SIZE_MAX ->
  alphabet_ok chars ->
  exists s gen,
    random_string len chars rd = Ret (s, gen)
    /\ size s = len
    /\ Forall (fun c => In c chars) s.
Proof.
  intros Hlen Hok. unfold random_string.
  rewrite (distribution_max_ok chars Hok).
  replace (size chars - 1 <? 0) with false
    by (symmetry; apply Z.ltb_ge; unfold alphabet_ok in Hok; lia).
  destruct (pick_ok chars rd Hok) as (c & gen1 & Ec & Hc).
  rewrite Ec. simpl.
  rewrite to_size_t_small by lia.
  destruct (random_string_loop_ok chars (Z.to_N (len - 1)) Hok [c] gen1)
    as (t & gen2 & E & Ht & Hin).
  - change (size [c]) with 1. unfold max_size. rewrite Z2N.id; lia.
  - exists ([c] ++ t), gen2. split; [exact E|]. split.
    + rewrite size_app, Ht. change (size [c]) with 1. rewrite Z2N.id; lia.
    + apply Forall_app. split; [repeat constructor; exact Hc | exact Hin].
Qed.

Lemma random_string_zero (chars : str) (rd : entropy) :
  alphabet_ok chars ->
  random_string 0 chars rd = Throw length_error.
Proof.
  intros Hok. unfold random_string.
  rewrite (distribution_max_ok chars Hok).
  replace (size chars - 1 <? 0) with false
    by (symmetry; apply Z.ltb_ge; unfold alphabet_ok in Hok; lia).
  destruct (pick_ok chars rd Hok) as (c & gen1 & Ec & Hc).
  rewrite Ec. simpl bind.
  rewrite to_size_t_underflow.
  apply random_string_loop_full; [exact Hok | | ];
    change (size [c]) with 1; unfold max_size.
  - unfold SIZE_MAX. lia.
  - rewrite Z2N.id; unfold SIZE_MAX; lia.
Qed.

Lemma random_string_nonempty (len : Z) (chars : str) (rd gen : entropy) (s : str) :
  random_string len chars rd = Ret (s, gen) -> s <> [].
Proof.
  unfold random_string. destruct (distribution_max chars <? 0); [discriminate|].
  intros H. apply random_string_loop_ret in H.
  destruct H as (s0 & gen0 & t & Hx & Hs).
  destruct (pick chars rd) as [[c gen1]| |]; simpl in Hx; try discriminate.
  inversion Hx; subst. discriminate.
Qed.

Lemma random_string_throw (len : Z) (chars : str) (rd : entropy) (e : exception) :
  random_string len chars rd = Throw e -> e = length_error.
Proof.
  unfold random_string. destruct (distribution_max chars <? 0); [discriminate|].
  intros H. apply random_string_loop_throw in H. destruct H as [H|H]; [|exact H].
  destruct (pick chars rd) as [[c gen1]| |] eqn:Ec; simpl in H; try discriminate.
  exfalso. eapply pick_no_throw. eassumption.
Qed.

Lemma random_string_empty (len : Z) (rd : entropy) :
  random_string len [] rd = Undefined.
Proof. reflexivity. Qed.

(** ** composite_password_generator::length *)

Lemma find_max_ret (a l : Z) : find_max (Ret a) (Ret l) = Ret (Z.max a l).
Proof.
  unfold find_max. simpl. destruct (l >? a) eqn:E.
  - apply Z.gtb_lt in E. f_equal. lia.
  - rewrite Z.gtb_ltb in E. apply Z.ltb_ge in E. f_equal. lia.
Qed.

Lemma fold_max_acc (lengths : list Z) (a : Z) :
  0 <= a -> fold_left Z.max lengths a = Z.max a (max_length lengths).
Proof.
  revert a. induction lengths as [|l ls IH]; intros a Ha; simpl.
  - unfold max_length. simpl. lia.
  - rewrite IH by lia. unfold max_length. simpl. lia.
Qed.

Lemma length_fold_ret (generators : list password_generator) (lengths : list Z) :
  Forall2 (fun p l => length p = Ret l) generators lengths ->
  forall a,
    fold_left (fun len p => find_max len (length p)) generators (Ret a)
    = Ret (fold_left Z.max lengths a).
Proof.
  induction 1 as [|p l ps ls Hp _ IH]; intros a; cbn [fold_left].
  - reflexivity.
  - rewrite Hp, find_max_ret. apply IH.
Qed.

Lemma max_length_upper (lengths : list Z) :
  Forall (fun l => l <= max_length lengths) lengths.
Proof.
  induction lengths as [|l ls IH]; constructor.
  - unfold max_length. simpl. lia.
  - eapply Forall_impl; [|exact IH]. unfold max_length. simpl. intros; lia.
Qed.

Lemma max_length_nonneg (lengths : list Z) : 0 <= max_length lengths.
Proof.
  induction lengths as [|l ls IH]; unfold max_length in *; simpl; lia.
Qed.

Lemma max_length_attained (lengths : list Z) :
  Forall (fun l => 0 <= l) lengths ->
  lengths <> [] ->
  In (max_length lengths) lengths.
Proof.
  induction 1 as [|l ls Hl Hls IH]; intros Hne; [congruence|].
  unfold max_length in *. simpl.
  destruct ls as [|l' ls'].
  - left. simpl. lia.
  - destruct (Z.max_spec l (fold_right Z.max 0 (l' :: ls'))) as [[_ E]|[_ E]];
      rewrite E.
    + right. apply IH. discriminate.
    + left. reflexivity.
Qed.

Lemma length_composite_ret (generators : list password_generator)
  (lengths : list Z) :
  Forall2 (fun p l => length p = Ret l) generators lengths ->
  length (composite generators) = Ret (max_length lengths).
Proof.
  intros H. cbn [length]. rewrite (length_fold_ret _ _ H), fold_max_acc by lia.
  pose proof (max_length_nonneg lengths). f_equal. lia.
Qed.

Lemma fold_left_throw {A B : Type} (f : outcome A -> B -> outcome A)
  (l : list B) (e : exception) :
  (forall b, f (Throw e) b = Throw e) ->
  fold_left f l (Throw e) = Throw e.
Proof.
  intros Hf. induction l as [|b l IH]; simpl; [reflexivity|].
  rewrite Hf. exact IH.
Qed.

Lemma fold_left_undefined {A B : Type} (f : outcome A -> B -> outcome A)
  (l : list B) :
  (forall b, f Undefined b = Undefined) ->
  fold_left f l Undefined = Undefined.
Proof.
  intros Hf. induction l as [|b l IH]; simpl; [reflexivity|].
  rewrite Hf. exact IH.
Qed.

(** When [length] of a composite fails, the [length] of a registered child
    fails the same way. *)
Lemma length_fold_fails (generators : list password_generator) (a : Z) :
  (forall l, fold_left (fun len p => find_max len (length p)) generators (Ret a)
             <> Ret l) ->
  exists p, In p generators /\ forall l, length p <> Ret l.
Proof.
  revert a. induction generators as [|p ps IH]; intros a H; cbn [fold_left] in H.
  - exfalso. apply (H a). reflexivity.
  - destruct (length p) as [l| |] eqn:E.
    + rewrite find_max_ret in H. destruct (IH _ H) as (q & Hq & Hf).
      exists q. split; [right; exact Hq | exact Hf].
    + exists p. split; [left; reflexivity|]. rewrite E. discriminate.
    + exists p. split; [left; reflexivity|]. rewrite E. discriminate.
Qed.

(** ** composite_password_generator::generate *)

Lemma generate_composite (generators : list password_generator) (gen : entropy) :
  generate (composite generators) gen =
  (pas_len <- length (composite generators) ;;
   '(generated_strings, gen) <- generate_each generate generators gen ;;
   let k := Z.of_nat (List.length generated_strings) in
   if pas_len <=? k
   then Throw too_short
   else
     concatenated_string <- concatenate generated_strings ;;
     '(password, gen) <-
       random_string (to_size_t (pas_len - k)) concatenated_string gen ;;
     append_samples generated_strings password gen).
Proof. reflexivity. Qed.

Section generate_each.

Context {A : Type} (f : A -> entropy -> outcome (str * entropy)).

Lemma generate_each_ret (generators : list A) :
  forall (gen gen1 : entropy) (generated_strings : list str),
    generate_each f generators gen = Ret (generated_strings, gen1) ->
    Forall2 (fun p s => exists g g', f p g = Ret (s, g'))
      generators generated_strings.
Proof.
  induction generators as [|p ps IH]; intros gen gen1 ss H; simpl in H.
  - inversion H. constructor.
  - destruct (f p gen) as [[s g]| |] eqn:Ep; simpl in H; try discriminate.
    destruct (generate_each f ps g) as [[ss' g']| |] eqn:Eps; simpl in H;
      try discriminate.
    inversion H; subst. constructor.
    + eauto.
    + eapply IH. eassumption.
Qed.

Lemma generate_each_length (generators : list A)
  (gen gen1 : entropy) (generated_strings : list str) :
  generate_each f generators gen = Ret (generated_strings, gen1) ->
  List.length generated_strings = List.length generators.
Proof.
  intros H. apply generate_each_ret in H.
  symmetry. eapply Forall2_length. eassumption.
Qed.

(** When every call returns, whatever the oracle, the loop returns. *)
Lemma generate_each_ok (P : A -> str -> Prop) (generators : list A) :
  Forall (fun p => forall g, exists s g', f p g = Ret (s, g') /\ P p s)
    generators ->
  forall gen, exists generated_strings gen1,
    generate_each f generators gen = Ret (generated_strings, gen1)
    /\ Forall2 P generators generated_strings.
Proof.
  induction 1 as [|p ps Hp _ IH]; intros gen; simpl.
  - exists [], gen. split; [reflexivity | constructor].
  - destruct (Hp gen) as (s & g & E & HP). rewrite E. simpl.
    destruct (IH g) as (ss & g1 & Ess & HF). rewrite Ess. simpl.
    exists (s :: ss), g1. split; [reflexivity | constructor; assumption].
Qed.

End generate_each.

Lemma size_concat_member (generated_strings : list str) (s : str) :
  In s generated_strings -> size s <= size (List.concat generated_strings).
Proof.
  induction generated_strings as [|t ts IH]; simpl; intros H; [contradiction|].
  rewrite size_app. destruct H as [->|H].
  - pose proof (size_nonneg (List.concat ts)). lia.
  - pose proof (size_nonneg t). specialize (IH H). lia.
Qed.

Lemma concatenate_acc (generated_strings : list str) :
  forall a : str,
    size a + size (List.concat generated_strings) <= max_size ->
    fold_left (fun acc s => concatenated_string <- acc ;; append concatenated_string s)
      generated_strings (Ret a)
    = Ret (a ++ List.concat generated_strings).
Proof.
  induction generated_strings as [|s ss IH]; intros a H; simpl.
  - rewrite app_nil_r. reflexivity.
  - simpl in H. rewrite size_app in H. unfold append.
    pose proof (size_nonneg (List.concat ss)).
    replace (size a + size s <=? max_size) with true
      by (symmetry; apply Z.leb_le; lia).
    rewrite IH by (rewrite size_app; lia).
    rewrite app_assoc. reflexivity.
Qed.

Lemma concatenate_ok (generated_strings : list str) :
  size (List.concat generated_strings) <= max_size ->
  concatenate generated_strings = Ret (List.concat generated_strings).
Proof.
  intros H. unfold concatenate. rewrite concatenate_acc; [reflexivity|].
  change (size []) with 0. lia.
Qed.

Lemma append_samples_cons (s : str) (generated_strings : list str)
  (password : str) (gen : entropy) :
  append_samples (s :: generated_strings) password gen =
  match ('(c, gen) <- random_string 1 s gen ;;
         password <- append password c ;;
         Ret (password, gen)) with
  | Ret (password, gen) => append_samples generated_strings password gen
  | Throw e => Throw e
  | Undefined => Undefined
  end.
Proof.
  unfold append_samples. cbn [fold_left]. cbn [bind].
  destruct (random_string 1 s gen) as [[c g]| |]; cbn [bind].
  - destruct (append password c) as [pw| |]; cbn [bind].
    + reflexivity.
    + apply fold_left_throw. reflexivity.
    + apply fold_left_undefined. reflexivity.
  - apply fold_left_throw. reflexivity.
  - apply fold_left_undefined. reflexivity.
Qed.

Lemma append_samples_ok (generated_strings : list str) :
  Forall alphabet_ok generated_strings ->
  forall (password : str) (gen : entropy),
    size password + Z.of_nat (List.length generated_strings) <= max_size ->
    exists tail gen',
      append_samples generated_strings password gen = Ret (password ++ tail, gen')
      /\ Forall2 (fun c s => In c s) tail generated_strings.
Proof.
  induction 1 as [|s ss Hs _ IH]; intros password gen Hsz.
  - exists [], gen. rewrite app_nil_r. split; [reflexivity | constructor].
  - rewrite append_samples_cons.
    destruct (random_string_ok 1 s gen) as (c & g & E & Hc & Hin);
      [unfold SIZE_MAX; lia | exact Hs |].
    rewrite E. cbn [bind].
    destruct c as [|c [|c' cs]]; try (unfold size in Hc; simpl in Hc; lia).
    cbn [List.length] in Hsz. unfold append.
    replace (size password + size [c] <=? max_size) with true
      by (symmetry; apply Z.leb_le; change (size [c]) with 1; lia).
    cbn [bind].
    destruct (IH (password ++ [c]) g) as (tail & g' & E' & HF).
    + rewrite size_app. change (size [c]) with 1. lia.
    + exists (c :: tail), g'. rewrite E'. rewrite <- app_assoc. simpl.
      split; [reflexivity|]. constructor; [|exact HF].
      inversion Hin; assumption.
Qed.

Lemma append_samples_ret (generated_strings : list str) :
  forall (password : str) (gen : entropy) (s : str) (gen' : entropy),
    append_samples generated_strings password gen = Ret (s, gen') ->
    exists tail, s = password ++ tail.
Proof.
  induction generated_strings as [|t ts IH]; intros password gen s gen' H.
  - inversion H. exists []. rewrite app_nil_r. reflexivity.
  - rewrite append_samples_cons in H.
    destruct (random_string 1 t gen) as [[c g]| |]; cbn [bind] in H;
      try discriminate.
    unfold append in H.
    destruct (size password + size c <=? max_size); cbn [bind] in H;
      try discriminate.
    destruct (IH _ _ _ _ H) as (tail & ->).
    exists (c ++ tail). rewrite app_assoc. reflexivity.
Qed.

(** No generator returns the empty string. *)
Lemma generate_nonempty (g : password_generator) (gen gen' : entropy) (s : str) :
  generate g gen = Ret (s, gen') -> s <> [].
Proof.
  destruct g as [|len|len|len|len|len|generators];
    try (cbn [generate allowed_chars bind]; intros H;
         first [discriminate | eapply random_string_nonempty; eassumption]).
  rewrite generate_composite. intros H.
  destruct (length (composite generators)) as [L| |]; cbn [bind] in H;
    try discriminate.
  destruct (generate_each generate generators gen) as [[ss g1]| |];
    cbn [bind] in H; try discriminate.
  cbv zeta in H.
  destruct (L <=? Z.of_nat (List.length ss)); try discriminate.
  destruct (concatenate ss) as [cs| |]; cbn [bind] in H; try discriminate.
  destruct (random_string _ cs g1) as [[pw g2]| |] eqn:E; cbn [bind] in H;
    try discriminate.
  apply random_string_nonempty in E.
  apply append_samples_ret in H. destruct H as (tail & ->).
  destruct pw; [congruence | discriminate].
Qed.

Lemma concat_nonempty (generated_strings : list str) :
  generated_strings <> [] ->
  Forall (fun s => s <> []) generated_strings ->
  List.concat generated_strings <> [].
Proof.
  intros Hne HF. destruct generated_strings as [|s ss]; [congruence|].
  inversion HF as [|? ? Hs _]; subst.
  simpl. destruct s; [congruence | discriminate].
Qed.

(** The shape of the password of a composite whose children returned the
    strings [generated_strings]. *)
Lemma generate_composite_ok (generators : list password_generator)
  (gen gen1 : entropy) (pas_len : Z) (generated_strings : list str) :
  length (composite generators) = Ret pas_len ->
  generate_each generate generators gen = Ret (generated_strings, gen1) ->
  Z.of_nat (List.length generators) < pas_len <= SIZE_MAX ->
  size (List.concat generated_strings) <= 2 ^ 31 ->
  exists filler tail gen2,
    generate (composite generators) gen = Ret (filler ++ tail, gen2)
    /\ size filler = pas_len - Z.of_nat (List.length generators)
    /\ Forall (fun c => In c (List.concat generated_strings)) filler
    /\ Forall2 (fun c s => In c s) tail generated_strings.
Proof.
  intros HL Hss Hk Hsz.
  pose proof (generate_each_length _ _ _ _ _ Hss) as Hlen.
  assert (Hne : Forall (fun s => s <> []) generated_strings).
  { apply generate_each_ret in Hss. clear -Hss.
    induction Hss as [|p s ps ss (g & g' & E) _ IH]; constructor; auto.
    eapply generate_nonempty; eassumption. }
  assert (Hss_ne : generated_strings <> []).
  { intros ->. destruct generators; [|discriminate].
    cbn in HL. inversion HL; subst. simpl in Hk. lia. }
  assert (Hcat : alphabet_ok (List.concat generated_strings)).
  { split; [|exact Hsz].
    pose proof (concat_nonempty _ Hss_ne Hne) as Hc.
    pose proof (size_nonneg (List.concat generated_strings)).
    destruct (Z.eq_dec (size (List.concat generated_strings)) 0) as [E|E]; [|lia].
    apply size_nil_iff in E. congruence. }
  assert (Hall : Forall alphabet_ok generated_strings).
  { apply Forall_forall. intros s Hs. split.
    - rewrite Forall_forall in Hne. specialize (Hne s Hs).
      pose proof (size_nonneg s).
      destruct (Z.eq_dec (size s) 0) as [E|E]; [|lia].
      apply size_nil_iff in E. congruence.
    - pose proof (size_concat_member _ _ Hs). lia. }
  rewrite generate_composite, HL. cbn [bind]. rewrite Hss. cbn [bind].
  cbv zeta. rewrite Hlen.
  replace (pas_len <=? Z.of_nat (List.length generators)) with false
    by (symmetry; apply Z.leb_gt; lia).
  rewrite concatenate_ok by (unfold max_size, SIZE_MAX; lia). cbn [bind].
  rewrite to_size_t_small by lia.
  destruct (random_string_ok (pas_len - Z.of_nat (List.length generators))
              (List.concat generated_strings) gen1) as (filler & g2 & E & Hf & Hin);
    [lia | exact Hcat |].
  rewrite E. cbn [bind].
  destruct (append_samples_ok _ Hall filler g2) as (tail & g3 & E' & HF).
  { rewrite Hf, Hlen. unfold max_size. lia. }
  exists filler, tail, g3. auto.
Qed.

(** ** The concrete policies *)

Lemma concrete_policy_alphabet (p : password_generator) :
  concrete_policy p = true ->
  exists chars, allowed_chars p = Ret chars /\ alphabet_ok chars.
Proof.
  destruct p; simpl; try discriminate; intros _;
    eexists; (split; [reflexivity | unfold alphabet_ok, size; simpl; lia]).
Qed.

(** A concrete policy of length [l >= 1] generates [l] characters of its
    alphabet. *)
Lemma concrete_policy_generate (p : password_generator) (l : Z) (gen : entropy) :
  concrete_policy p = true ->
  length p = Ret l ->
  1 <= l <= SIZE_MAX ->
  exists s gen' chars,
    generate p gen = Ret (s, gen')
    /\ size s = l
    /\ allowed_chars p = Ret chars
    /\ Forall (fun c => In c chars) s.
Proof.
  intros Hp Hl Hr.
  destruct (concrete_policy_alphabet p Hp) as (chars & Ea & Hok).
  assert (E : generate p gen = random_string l chars gen).
  { destruct p; simpl in Hp; try discriminate;
      cbn [length] in Hl; inversion Hl; subst;
      cbn [generate]; rewrite Ea; reflexivity. }
  destruct (random_string_ok l chars gen Hr Hok) as (s & gen' & Es & Hs & Hin).
  exists s, gen', chars. rewrite E. auto.
Qed.

(** A concrete policy of length [0] ends in [length_error]: the loop bound
    [len - 1] wraps around to [SIZE_MAX]. *)
Lemma concrete_policy_generate_zero (p : password_generator) (gen : entropy) :
  concrete_policy p = true ->
  length p = Ret 0 ->
  generate p gen = Throw length_error.
Proof.
  intros Hp Hl.
  destruct (concrete_policy_alphabet p Hp) as (chars & Ea & Hok).
  destruct p; simpl in Hp; try discriminate;
    cbn [length] in Hl; inversion Hl; subst;
    cbn [generate]; rewrite Ea; cbn [bind]; apply random_string_zero; exact Hok.
Qed.

(** ** The reference scenario of [main] *)

Example main_generator_value :
  main_generator
  = Ret (composite [digit 16; symbol 12; upper_letter 16; lower_letter 12]).
Proof. reflexivity. Qed.

Example random_string_three_digits :
  returned (random_string 3 (list_ascii_of_string "0123456789") sample_entropy)
  = Some (list_ascii_of_string "307").
Proof. reflexivity. Qed.

Example main_password :
  returned (g <- main_generator ;; generate g sample_entropy)
  = Some (list_ascii_of_string "43@-ETih43@-8#Ch").
Proof. vm_compute. reflexivity. Qed.

Example main_password_size :
  exists s gen,
    (g <- main_generator ;; generate g sample_entropy) = Ret (s, gen)
    /\ size s = 16.
Proof. eexists. eexists. split; [vm_compute; reflexivity | reflexivity]. Qed.

(** ** Composites of concrete policies *)

Lemma max_length_bound (lengths : list Z) (b : Z) :
  0 <= b -> Forall (fun l => l <= b) lengths -> max_length lengths <= b.
Proof.
  intros Hb. induction 1 as [|l ls Hl _ IH]; unfold max_length in *; simpl; lia.
Qed.

Lemma sum_lengths_member (lengths : list Z) :
  Forall (fun l => 1 <= l) lengths ->
  Forall (fun l => l <= sum_lengths lengths) lengths.
Proof.
  induction 1 as [|l ls Hl Hls IH]; constructor.
  - unfold sum_lengths. simpl.
    assert (0 <= fold_right Z.add 0 ls).
    { clear -Hls. induction Hls; simpl; lia. }
    lia.
  - eapply Forall_impl; [|exact IH]. unfold sum_lengths. simpl. intros; lia.
Qed.

Lemma policies_generate_each (generators : list password_generator)
  (lengths : list Z) :
  Forall (fun p => concrete_policy p = true) generators ->
  Forall2 (fun p l => length p = Ret l) generators lengths ->
  Forall (fun l => 1 <= l <= SIZE_MAX) lengths ->
  forall gen, exists generated_strings gen1,
    generate_each generate generators gen = Ret (generated_strings, gen1)
    /\ Forall2 fragment_of generators generated_strings.
Proof.
  intros Hc Hl Hr. apply generate_each_ok.
  induction Hl as [|p l ps ls Hp _ IH]; [constructor|].
  inversion Hc; inversion Hr; subst. constructor; [|apply IH; assumption].
  intros g.
  destruct (concrete_policy_generate p l g) as (s & g' & chars & E & Hs & Ea & Hin);
    try assumption.
  exists s, g'. split; [exact E|]. exists l, chars. auto.
Qed.

Lemma fragments_size (generators : list password_generator) (lengths : list Z) :
  Forall2 (fun p l => length p = Ret l) generators lengths ->
  forall generated_strings,
    Forall2 fragment_of generators generated_strings ->
    size (List.concat generated_strings) = sum_lengths lengths.
Proof.
  induction 1 as [|p l ps ls Hp _ IH]; intros ss Hss;
    inversion Hss as [|p' s ps' ss' Hfrag Hrest]; subst.
  - reflexivity.
  - simpl. rewrite size_app. unfold sum_lengths. simpl.
    destruct Hfrag as (l0 & chars & El & Hs & _).
    rewrite Hp in El. inversion El; subst.
    f_equal. apply IH. exact Hrest.
Qed.

Lemma fragments_sampled (generators : list password_generator)
  (generated_strings : list str) :
  Forall2 fragment_of generators generated_strings ->
  forall tail : str,
    Forall2 (fun c s => In c s) tail generated_strings ->
    Forall (fun p => exists chars c,
                allowed_chars p = Ret chars /\ In c chars /\ In c tail)
      generators.
Proof.
  induction 1 as [|p s ps ss Hp _ IH]; intros tail Ht; [constructor|].
  inversion Ht as [|c s' cs ss' Hc Hcs]; subst. constructor.
  - destruct Hp as (l & chars & _ & _ & Ea & Hin).
    exists chars, c. split; [exact Ea|]. split; [|left; reflexivity].
    rewrite Forall_forall in Hin. apply Hin. exact Hc.
  - eapply Forall_impl; [|apply IH; exact Hcs].
    intros q (chars & c' & Ea & H1 & H2). exists chars, c'.
    split; [exact Ea|]. split; [exact H1 | right; exact H2].
Qed.

(** A composite of concrete policies, longer than the number of its
    children. *)
Lemma composite_of_policies (generators : list password_generator)
  (lengths : list Z) (gen : entropy) :
  Forall (fun p => concrete_policy p = true) generators ->
  Forall2 (fun p l => length p = Ret l) generators lengths ->
  Forall (fun l => 1 <= l) lengths ->
  sum_lengths lengths <= 2 ^ 31 ->
  Z.of_nat (List.length generators) < max_length lengths ->
  exists s gen',
    generate (composite generators) gen = Ret (s, gen')
    /\ size s = max_length lengths
    /\ Forall (fun p => exists chars c,
                  allowed_chars p = Ret chars /\ In c chars /\ In c s)
         generators.
Proof.
  intros Hc Hl H1 Hsum Hk.
  assert (Hr : Forall (fun l => 1 <= l <= 2 ^ 31) lengths).
  { pose proof (sum_lengths_member lengths H1) as Hm.
    rewrite Forall_forall in *. intros l Hin.
    specialize (H1 l Hin). specialize (Hm l Hin). lia. }
  destruct (policies_generate_each generators lengths Hc Hl) with (gen := gen)
    as (ss & gen1 & Ess & Hss).
  { eapply Forall_impl; [|exact Hr]. unfold SIZE_MAX. intros; simpl in *; lia. }
  destruct (generate_composite_ok generators gen gen1 (max_length lengths) ss)
    as (filler & tail & gen2 & E & Hf & _ & Ht).
  - apply length_composite_ret. exact Hl.
  - exact Ess.
  - split; [exact Hk|].
    apply max_length_bound; [unfold SIZE_MAX; lia|].
    eapply Forall_impl; [|exact Hr]. unfold SIZE_MAX. intros; simpl in *; lia.
  - rewrite (fragments_size _ _ Hl _ Hss). exact Hsum.
  - exists (filler ++ tail), gen2. split; [exact E|]. split.
    + rewrite size_app, Hf.
      assert (Hlen : List.length tail = List.length generators).
      { rewrite (Forall2_length Ht). symmetry. exact (Forall2_length Hss). }
      unfold size at 1. rewrite Hlen. lia.
    + eapply Forall_impl; [|exact (fragments_sampled _ _ Hss _ Ht)].
      intros p (chars & c & Ea & Hc1 & Hc2). exists chars, c.
      split; [exact Ea|]. split; [exact Hc1|].
      apply in_or_app. right. exact Hc2.
Qed.

(** What [random_string] returns is made of characters of the alphabet. *)
Lemma random_string_in_alphabet (len : Z) (chars : str) (rd gen : entropy)
  (s : str) :
  alphabet_ok chars ->
  random_string len chars rd = Ret (s, gen) ->
  Forall (fun c => In c chars) s.
Proof.
  intros Hok H. unfold random_string in H.
  rewrite (distribution_max_ok chars Hok) in H.
  replace (size chars - 1 <? 0) with false in H
    by (symmetry; apply Z.ltb_ge; unfold alphabet_ok in Hok; lia).
  destruct (pick_ok chars rd Hok) as (c & gen1 & Ec & Hc).
  remember (Z.to_N (to_size_t (len - 1))) as n eqn:En. clear En.
  rewrite Ec in H. simpl in H.
  destruct (Z_le_gt_dec (size [c] + Z.of_N n) max_size) as [Hle|Hgt].
  - destruct (random_string_loop_ok chars n Hok [c] gen1 Hle)
      as (t & gen2 & E & _ & Hin).
    pose proof (eq_trans (eq_sym H) E) as E'. inversion E'; subst.
    constructor; [exact Hc | exact Hin].
  - assert (E : N.iter n (random_string_step chars) (Ret ([c], gen1))
                = Throw length_error).
    { apply random_string_loop_full; [exact Hok | | lia].
      change (size [c]) with 1. unfold max_size, SIZE_MAX. lia. }
    pose proof (eq_trans (eq_sym H) E) as E'. discriminate.
Qed.

(** What a generator with an alphabet returns is made of characters of this
    alphabet. *)
Lemma generate_in_alphabet (p : password_generator) (chars : str)
  (gen gen' : entropy) (s : str) :
  allowed_chars p = Ret chars ->
  generate p gen = Ret (s, gen') ->
  Forall (fun c => In c chars) s.
Proof.
  intros Ea H.
  assert (Hok : alphabet_ok chars).
  { destruct p; cbn [allowed_chars] in Ea; try discriminate;
      inversion Ea; subst; unfold alphabet_ok, size; simpl; lia. }
  destruct p; cbn [allowed_chars] in Ea; try discriminate;
    cbn [generate] in H; cbn [allowed_chars] in H; rewrite Ea in H;
    cbn [bind] in H; eapply random_string_in_alphabet; eassumption.
Qed.

Lemma fragments_in_alphabets (generators : list password_generator)
  (generated_strings : list str) :
  Forall2 (fun p s => exists g g', generate p g = Ret (s, g'))
    generators generated_strings ->
  forall tail : str,
    Forall2 (fun c s => In c s) tail generated_strings ->
    Forall (fun p => forall chars,
                allowed_chars p = Ret chars ->
                exists c, In c chars /\ In c tail)
      generators.
Proof.
  induction 1 as [|p s ps ss (g & g' & E) _ IH]; intros tail Ht; [constructor|].
  inversion Ht as [|c s' cs ss' Hc Hcs]; subst. constructor.
  - intros chars Ea. exists c. split; [|left; reflexivity].
    pose proof (generate_in_alphabet p chars g g' s Ea E) as Hin.
    rewrite Forall_forall in Hin. apply Hin. exact Hc.
  - eapply Forall_impl; [|apply IH; exact Hcs].
    intros q Hq chars Ea. destruct (Hq chars Ea) as (c' & H1 & H2).
    exists c'. split; [exact H1 | right; exact H2].
Qed.

(** A composite, longer than the number of its children, whose children
    returned the strings [generated_strings]. *)
Lemma composite_output (generators : list password_generator)
  (lengths : list Z) (gen gen1 : entropy) (generated_strings : list str) :
  Forall2 (fun p l => length p = Ret l) generators lengths ->
  generate_each generate generators gen = Ret (generated_strings, gen1) ->
  Z.of_nat (List.length generators) < max_length lengths <= SIZE_MAX ->
  size (List.concat generated_strings) <= 2 ^ 31 ->
  exists s gen',
    generate (composite generators) gen = Ret (s, gen')
    /\ size s = max_length lengths
    /\ Forall (fun p => forall chars,
                  allowed_chars p = Ret chars ->
                  exists c, In c chars /\ In c s)
         generators.
Proof.
  intros Hl Hss Hk Hsz.
  destruct (generate_composite_ok generators gen gen1 (max_length lengths)
              generated_strings) as (filler & tail & gen2 & E & Hf & _ & Ht);
    try assumption.
  { apply length_composite_ret. exact Hl. }
  exists (filler ++ tail), gen2. split; [exact E|]. split.
  - rewrite size_app, Hf.
    assert (Hlen : List.length tail = List.length generators).
    { rewrite (Forall2_length Ht). eapply generate_each_length. eassumption. }
    unfold size at 1. rewrite Hlen. lia.
  - eapply Forall_impl;
      [|exact (fragments_in_alphabets _ _ (generate_each_ret _ _ _ _ _ Hss) _ Ht)].
    intros p Hp chars Ea. destruct (Hp chars Ea) as (c & H1 & H2).
    exists c. split; [exact H1|]. apply in_or_app. right. exact H2.
Qed.

Lemma size_long_alphabet : size long_alphabet = 2 ^ 31 + 1.
Proof.
  unfold long_alphabet, size. rewrite repeat_length. apply Z2Nat.id. lia.
Qed.

(** * The claims *)

(** ** C1 *)

(** C1, counterexample: a composite of a digit policy of length [5] and an
    empty composite has [totalLen = 5 > 2 = k], yet [generate()] returns no
    string: the registered empty composite throws, and the exception leaves
    the outer [generate()]. *)
Lemma C1_counterexample :
  length (composite [digit 5; composite []]) = Ret 5
  /\ Z.of_nat (List.length [digit 5; composite []]) < 5
  /\ generate (composite [digit 5; composite []]) sample_entropy
     = Throw too_short.
Proof. repeat split. Qed.

(** C1 (amended): a composite of four concrete policies of length [16]
    generates a string of exactly [16] characters with at least one
    character of the alphabet of each child.  In general, for every composite
    that satisfies [totalLen > k] and whose children's [generate()] calls all
    return, with fragments of at most [2^31] characters in total, the output
    has the maximum of the children's lengths as its length and holds, for
    each child that has an alphabet, at least one character of it.  The
    children's calls return when the children are concrete policies (digit,
    symbol, upper letter, lower letter) of length at least [1] and of total
    length at most [2^31]. *)
Theorem C1_composite_output :
  (forall p1 p2 p3 p4 gen,
      Forall (fun p => concrete_policy p = true /\ length p = Ret 16)
        [p1; p2; p3; p4] ->
      exists s gen',
        generate (composite [p1; p2; p3; p4]) gen = Ret (s, gen')
        /\ size s = 16
        /\ Forall (fun p => exists chars c,
                      allowed_chars p = Ret chars /\ In c chars /\ In c s)
             [p1; p2; p3; p4])
  /\ (forall generators lengths gen gen1 generated_strings,
         Forall2 (fun p l => length p = Ret l) generators lengths ->
         generate_each generate generators gen = Ret (generated_strings, gen1) ->
         Z.of_nat (List.length generators) < max_length lengths <= SIZE_MAX ->
         size (List.concat generated_strings) <= 2 ^ 31 ->
         exists s gen',
           generate (composite generators) gen = Ret (s, gen')
           /\ size s = max_length lengths
           /\ Forall (fun p => forall chars,
                         allowed_chars p = Ret chars ->
                         exists c, In c chars /\ In c s)
                generators)
  /\ (forall generators lengths gen,
         Forall (fun p => concrete_policy p = true) generators ->
         Forall2 (fun p l => length p = Ret l) generators lengths ->
         Forall (fun l => 1 <= l) lengths ->
         sum_lengths lengths <= 2 ^ 31 ->
         Z.of_nat (List.length generators) < max_length lengths ->
         exists s gen',
           generate (composite generators) gen = Ret (s, gen')
           /\ size s = max_length lengths
           /\ Forall (fun p => exists chars c,
                         allowed_chars p = Ret chars /\ In c chars /\ In c s)
                generators).
Proof.
  split; [|split].
  - intros p1 p2 p3 p4 gen H.
    apply (composite_of_policies [p1; p2; p3; p4] [16; 16; 16; 16] gen).
    + eapply Forall_impl; [|exact H]. intros p [Hp _]. exact Hp.
    + repeat match goal with
             | H : Forall _ (_ :: _) |- _ => inversion H; clear H; subst
             end.
      repeat constructor; tauto.
    + repeat constructor; lia.
    + unfold sum_lengths. simpl. lia.
    + unfold max_length. simpl. lia.
  - intros generators lengths gen gen1 generated_strings.
    apply composite_output.
  - intros generators lengths gen. apply composite_of_policies.
Qed.

(** C1, witness: the four concrete policies, each of length [16]; a digit
    policy of length [3] with a lower-letter policy of length [2]; a symbol
    policy of length [4] with an upper-letter policy of length [5]. *)
Lemma C1_witness :
  (exists s gen',
      generate (composite [digit 16; symbol 16; upper_letter 16; lower_letter 16])
        sample_entropy = Ret (s, gen')
      /\ size s = 16
      /\ Forall (fun p => exists chars c,
                    allowed_chars p = Ret chars /\ In c chars /\ In c s)
           [digit 16; symbol 16; upper_letter 16; lower_letter 16])
  /\ (exists s gen',
         generate (composite [digit 3; lower_letter 2]) sample_entropy
         = Ret (s, gen')
         /\ size s = 3)
  /\ (exists s gen',
         generate (composite [symbol 4; upper_letter 5]) sample_entropy
         = Ret (s, gen')
         /\ size s = 5).
Proof.
  split; [|split].
  - apply (proj1 C1_composite_output (digit 16) (symbol 16) (upper_letter 16)
             (lower_letter 16) sample_entropy).
    repeat constructor.
  - edestruct (proj1 (proj2 C1_composite_output)
                 [digit 3; lower_letter 2] [3; 2] sample_entropy)
      as (s & gen' & E & Hs & _).
    + repeat constructor.
    + cbv. reflexivity.
    + unfold SIZE_MAX, max_length. simpl. lia.
    + unfold size. simpl. lia.
    + exists s, gen'. split; [exact E | exact Hs].
  - destruct (proj2 (proj2 C1_composite_output)
                [symbol 4; upper_letter 5] [4; 5] sample_entropy)
      as (s & gen' & E & Hs & _).
    + repeat constructor.
    + repeat constructor.
    + repeat constructor; lia.
    + unfold sum_lengths. simpl. lia.
    + unfold max_length. simpl. lia.
    + exists s, gen'. split; [exact E | exact Hs].
Defined.

(** ** C2 *)

(** C2, counterexample: with an upper-letter policy of length [8] and an
    empty composite registered, [totalLen = 8 > 2 = k], and [generate()]
    raises the too-short [out_of_range] all the same: the one thrown by the
    registered empty composite. *)
Lemma C2_counterexample :
  length (composite [upper_letter 8; composite []]) = Ret 8
  /\ Z.of_nat (List.length [upper_letter 8; composite []]) < 8
  /\ generate (composite [upper_letter 8; composite []]) sample_entropy
     = Throw too_short.
Proof. repeat split. Qed.

(** C2 (amended): for a composite whose children's [generate()] calls all
    return (with fragments of at most [2^31] characters in total),
    [generate()] raises the too-short [out_of_range] exactly when
    [totalLen <= k], and then returns no password.  With no child registered
    [generate()] fails with this error, and so it does with a single concrete
    policy of length [1].  An exception thrown while the children generate
    leaves the outer [generate()] as it is. *)
Theorem C2_insufficient_length :
  (forall generators gen gen1 pas_len generated_strings,
      length (composite generators) = Ret pas_len ->
      generate_each generate generators gen = Ret (generated_strings, gen1) ->
      pas_len <= SIZE_MAX ->
      size (List.concat generated_strings) <= 2 ^ 31 ->
      (generate (composite generators) gen = Throw too_short
       <-> pas_len <= Z.of_nat (List.length generators)))
  /\ (forall gen, generate (composite []) gen = Throw too_short)
  /\ (forall p gen,
         concrete_policy p = true ->
         length p = Ret 1 ->
         generate (composite [p]) gen = Throw too_short)
  /\ (forall generators gen pas_len e,
         length (composite generators) = Ret pas_len ->
         generate_each generate generators gen = Throw e ->
         generate (composite generators) gen = Throw e).
Proof.
  assert (Hthrow : forall generators gen gen1 pas_len generated_strings,
             length (composite generators) = Ret pas_len ->
             generate_each generate generators gen = Ret (generated_strings, gen1) ->
             pas_len <= Z.of_nat (List.length generators) ->
             generate (composite generators) gen = Throw too_short).
  { intros generators gen gen1 pas_len ss HL Hss Hle.
    rewrite generate_composite, HL. cbn [bind]. rewrite Hss. cbn [bind].
    cbv zeta. rewrite (generate_each_length _ _ _ _ _ Hss).
    replace (pas_len <=? Z.of_nat (List.length generators)) with true
      by (symmetry; apply Z.leb_le; exact Hle).
    reflexivity. }
  split; [|split; [|split]].
  - intros generators gen gen1 pas_len ss HL Hss Hmax Hsz. split.
    + intros E.
      destruct (Z_le_gt_dec pas_len (Z.of_nat (List.length generators)))
        as [Hle|Hgt]; [exact Hle|].
      destruct (generate_composite_ok generators gen gen1 pas_len ss)
        as (filler & tail & gen2 & E' & _); try assumption; [lia|].
      rewrite E in E'. discriminate.
    + intros Hle. eapply Hthrow; eassumption.
  - intros gen. reflexivity.
  - intros p gen Hp Hl.
    destruct (concrete_policy_generate p 1 gen Hp Hl) as (s & gen' & _ & E & _);
      [unfold SIZE_MAX; lia|].
    apply (Hthrow [p] gen gen' 1 [s]).
    + cbn [length fold_left]. rewrite Hl. reflexivity.
    + simpl. rewrite E. reflexivity.
    + simpl. lia.
  - intros generators gen pas_len e HL He.
    rewrite generate_composite, HL. cbn [bind]. rewrite He. reflexivity.
Qed.

(** C2, witness: a single digit of length [1]; two policies of length
    [2]; a composite that holds an empty composite. *)
Lemma C2_witness :
  generate (composite [digit 1]) sample_entropy = Throw too_short
  /\ (generate (composite [digit 2; symbol 2]) sample_entropy = Throw too_short
      <-> 2 <= Z.of_nat (List.length [digit 2; symbol 2]))
  /\ generate (composite [lower_letter 4; composite []]) sample_entropy
     = Throw too_short.
Proof.
  split; [|split].
  - apply (proj1 (proj2 (proj2 C2_insufficient_length)) (digit 1)
             sample_entropy); reflexivity.
  - eapply (proj1 C2_insufficient_length [digit 2; symbol 2] sample_entropy).
    + reflexivity.
    + cbv. reflexivity.
    + unfold SIZE_MAX. lia.
    + unfold size. simpl. lia.
  - apply (proj2 (proj2 (proj2 C2_insufficient_length))
             [lower_letter 4; composite []] sample_entropy 4 too_short);
      reflexivity.
Defined.

(** ** C3 *)

(** C3, counterexample: with a non-empty alphabet of [2^31 + 1] characters
    the last index does not fit the [int] bound of the distribution, which is
    built over [0, -2^31]; [random_string(1, alphabet)] is undefined and
    returns no string. *)
Lemma C3_counterexample :
  1 <= 1
  /\ long_alphabet <> []
  /\ random_string 1 long_alphabet sample_entropy = Undefined.
Proof.
  split; [lia|]. split.
  - intros E. pose proof size_long_alphabet as H. rewrite E in H.
    change (size []) with 0 in H. lia.
  - unfold random_string, distribution_max. rewrite size_long_alphabet.
    reflexivity.
Qed.

(** C3 (amended): for every length from [1] to [SIZE_MAX] and every
    alphabet of [1] to [2^31] characters, [random_string(length, alphabet)]
    returns a string of exactly [length] characters, each of them a member of
    the alphabet. *)
Theorem C3_random_string_valid (len : Z) (chars : str) (rd : entropy) :
  1 <= len <= SIZE_MAX ->
  1 <= size chars <= 2 ^ 31 ->
  exists s gen,
    random_string len chars rd = Ret (s, gen)
    /\ size s = len
    /\ Forall (fun c => In c chars) s.
Proof.
  intros Hlen Hchars. apply random_string_ok; assumption.
Qed.

(** C3, witness: three digits. *)
Lemma C3_witness :
  exists s gen,
    random_string 3 (list_ascii_of_string "0123456789") sample_entropy
    = Ret (s, gen)
    /\ size s = 3
    /\ Forall (fun c => In c (list_ascii_of_string "0123456789")) s.
Proof.
  apply (C3_random_string_valid 3 (list_ascii_of_string "0123456789")
           sample_entropy).
  - unfold SIZE_MAX. lia.
  - unfold size. simpl. lia.
Defined.

(** ** C4 *)

(** C4, counterexample: the parameter of [set_length] is a [size_t]; the
    argument [-1] arrives as [SIZE_MAX], passes the test [new_l <= 0] and is
    stored. *)
Lemma C4_counterexample :
  password_default_length.set_length (-1) password_default_length.initial
  = (Ret tt, SIZE_MAX).
Proof. reflexivity. Qed.

(** C4 (amended): [set_length(0)] fails with [out_of_range] and leaves the
    stored default length unchanged; every argument from [1] to [SIZE_MAX]
    (the values of the unsigned parameter other than [0]) is accepted and
    stored, so the default length, [10] at first, is always positive; after
    [set_length(16)], [length()] returns [16]. *)
Theorem C4_set_length :
  (forall len,
      password_default_length.set_length 0 len
      = (Throw (out_of_range "Password default length: invalid length value"),
         len))
  /\ (forall arg len,
         1 <= arg <= SIZE_MAX ->
         password_default_length.set_length arg len = (Ret tt, arg))
  /\ 0 < password_default_length.initial
  /\ (forall arg len,
         0 < len -> 0 < snd (password_default_length.set_length arg len))
  /\ (forall len,
         password_default_length.set_length 16 len = (Ret tt, 16)
         /\ password_default_length.length
              (snd (password_default_length.set_length 16 len)) = 16).
Proof.
  repeat split.
  - intros arg len H. unfold password_default_length.set_length.
    rewrite to_size_t_small by lia.
    replace (arg <=? 0) with false by (symmetry; apply Z.leb_gt; lia).
    reflexivity.
  - intros arg len H. unfold password_default_length.set_length.
    destruct (to_size_t arg <=? 0) eqn:E; simpl; [exact H|].
    apply Z.leb_gt in E. exact E.
Qed.

(** C4, witness: [set_length(7)], and a call made with [-3]. *)
Lemma C4_witness :
  password_default_length.set_length 7 password_default_length.initial
  = (Ret tt, 7)
  /\ 0 < snd (password_default_length.set_length (-3) 7).
Proof.
  split.
  - apply (proj1 (proj2 C4_set_length) 7 password_default_length.initial).
    unfold SIZE_MAX. lia.
  - apply (proj1 (proj2 (proj2 (proj2 C4_set_length))) (-3) 7). lia.
Defined.

(** ** C5 *)

(** C5, counterexample: with an empty alphabet [random_string] raises
    nothing; the distribution is built over [0, -1] and the call is
    undefined. *)
Lemma C5_counterexample :
  random_string 1 [] sample_entropy = Undefined
  /\ forall e, random_string 1 [] sample_entropy <> Throw e.
Proof.
  split; [reflexivity|]. intros e. discriminate.
Qed.

(** C5 (amended): [random_string] checks neither argument and never raises
    an input error, whatever the length and the alphabet: [length >= 1] and
    a non-empty alphabet are preconditions left to the caller.  With an empty
    alphabet the call is undefined, whatever the length. *)
Theorem C5_random_string_unchecked :
  (forall len chars rd,
      raises_input_error (random_string len chars rd) = false)
  /\ (forall len rd, random_string len [] rd = Undefined).
Proof.
  split.
  - intros len chars rd.
    destruct (random_string len chars rd) as [r|e|] eqn:E; try reflexivity.
    apply random_string_throw in E. subst. reflexivity.
  - intros len rd. apply random_string_empty.
Qed.

(** ** C6 *)

(** C6: constructed without an explicit length, a symbol policy and a
    lower-letter policy have length [12] whatever the default length is; a
    digit policy and an upper-letter policy have the default length in effect
    when they are constructed. *)
Theorem C6_default_lengths (st : password_default_length.state) :
  length (symbol_generator None st) = Ret 12
  /\ length (lower_letter_generator None st) = Ret 12
  /\ length (digit_generator None st)
     = Ret (password_default_length.length st)
  /\ length (upper_letter_generator None st)
     = Ret (password_default_length.length st).
Proof.
  repeat split.
Qed.

(** ** C7 *)

(** C7, counterexample: with a symbol policy of length [6] and an empty
    composite registered, [totalLen = 6 > 2 = k], and [generate()] throws
    instead of returning a filler and a trailing block. *)
Lemma C7_counterexample :
  length (composite [symbol 6; composite []]) = Ret 6
  /\ Z.of_nat (List.length [symbol 6; composite []]) < 6
  /\ generate (composite [symbol 6; composite []]) sample_entropy
     = Throw too_short.
Proof. repeat split. Qed.

(** C7 (amended): for every composite that satisfies [totalLen > k] and
    whose children's [generate()] calls all return, with fragments of at most
    [2^31] characters in total, the result of [generate()] is a filler of
    [totalLen - k] characters, each taken from the concatenation of the
    fragments, followed by a block of exactly [k] characters in registration
    order, the i-th of them taken from the fragment of the i-th child. *)
Theorem C7_password_structure (generators : list password_generator)
  (gen gen1 : entropy) (pas_len : Z) (generated_strings : list str) :
  length (composite generators) = Ret pas_len ->
  generate_each generate generators gen = Ret (generated_strings, gen1) ->
  Z.of_nat (List.length generators) < pas_len <= SIZE_MAX ->
  size (List.concat generated_strings) <= 2 ^ 31 ->
  exists filler tail gen2,
    generate (composite generators) gen = Ret (filler ++ tail, gen2)
    /\ size filler = pas_len - Z.of_nat (List.length generators)
    /\ Forall (fun c => In c (List.concat generated_strings)) filler
    /\ List.length tail = List.length generators
    /\ Forall2 (fun c s => In c s) tail generated_strings.
Proof.
  intros HL Hss Hk Hsz.
  destruct (generate_composite_ok generators gen gen1 pas_len generated_strings
              HL Hss Hk Hsz) as (filler & tail & gen2 & E & Hf & Hin & Ht).
  exists filler, tail, gen2. repeat split; try assumption.
  rewrite (Forall2_length Ht). eapply generate_each_length. eassumption.
Qed.

(** C7, witness: a digit policy of length [3] and a lower-letter policy
    of length [2]. *)
Lemma C7_witness :
  exists filler tail gen2,
    generate (composite [digit 3; lower_letter 2]) sample_entropy
    = Ret (filler ++ tail, gen2)
    /\ size filler = 1
    /\ List.length tail = 2%nat.
Proof.
  edestruct (C7_password_structure [digit 3; lower_letter 2] sample_entropy)
    as (filler & tail & gen2 & E & Hf & _ & Ht & _).
  - reflexivity.
  - cbv. reflexivity.
  - unfold SIZE_MAX. simpl. lia.
  - unfold size. simpl. lia.
  - exists filler, tail, gen2. auto.
Defined.

(** ** C8 *)

(** C8, counterexample: a plain [password_generator] can be registered, and
    [length()] of the composite then fails with its [runtime_error]. *)
Lemma C8_counterexample :
  add composite_password_generator plain_generator
  = Ret (composite [plain_generator])
  /\ length (composite [plain_generator])
     = Throw (runtime_error "password_generator: can't return length.").
Proof. split; reflexivity. Qed.

(** C8 (amended): when [length()] of every registered child returns,
    [length()] of the composite returns the maximum of these values, [0] for
    a composite without children; it fails only when [length()] of a
    registered child fails. *)
Theorem C8_composite_length :
  (forall generators lengths,
      Forall2 (fun p l => length p = Ret l) generators lengths ->
      length (composite generators) = Ret (max_length lengths)
      /\ Forall (fun l => l <= max_length lengths) lengths
      /\ (Forall (fun l => 0 <= l) lengths -> lengths <> [] ->
          In (max_length lengths) lengths))
  /\ length (composite []) = Ret 0
  /\ (forall generators,
         (forall l, length (composite generators) <> Ret l) ->
         exists p, In p generators /\ forall l, length p <> Ret l).
Proof.
  split; [|split].
  - intros generators lengths H. split; [|split].
    + apply length_composite_ret. exact H.
    + apply max_length_upper.
    + apply max_length_attained.
  - reflexivity.
  - intros generators H. apply (length_fold_fails generators 0). exact H.
Qed.

(** C8, witness: a nested composite, and a composite that holds a plain
    generator. *)
Lemma C8_witness :
  (length (composite [digit 16; symbol 12; composite [lower_letter 20]])
   = Ret 20
   /\ In 20 [16; 12; 20])
  /\ exists p,
       In p [digit 16; plain_generator] /\ forall l, length p <> Ret l.
Proof.
  split.
  - pose proof (proj1 C8_composite_length
                  [digit 16; symbol 12; composite [lower_letter 20]]
                  [16; 12; 20]) as H.
    destruct H as (H1 & _ & H3).
    + repeat constructor.
    + split; [exact H1|]. apply H3; [repeat constructor; lia | discriminate].
  - apply (proj2 (proj2 C8_composite_length) [digit 16; plain_generator]).
    intros l. discriminate.
Defined.

(** ** C9 *)

(** C9, the code at the failing input: a policy constructed with the
    explicit length [0] is accepted by every constructor, and its
    [generate()] neither returns a string nor raises an error of the
    program: the bound [len - 1] of the loop of [random_string] wraps around
    to [SIZE_MAX], and the loop appends characters until the string cannot
    grow. *)
Theorem C9_zero_length_policy (st : password_default_length.state)
  (gen : entropy) :
  to_size_t (0 - 1) = SIZE_MAX
  /\ length (digit_generator (Some 0) st) = Ret 0
  /\ generate (digit_generator (Some 0) st) gen = Throw length_error
  /\ generate (symbol_generator (Some 0) st) gen = Throw length_error
  /\ generate (upper_letter_generator (Some 0) st) gen = Throw length_error
  /\ generate (lower_letter_generator (Some 0) st) gen = Throw length_error.
Proof.
  split; [reflexivity|]. split; [reflexivity|].
  split; [apply concrete_policy_generate_zero; reflexivity|].
  split; [apply concrete_policy_generate_zero; reflexivity|].
  split; apply concrete_policy_generate_zero; reflexivity.
Qed.

(** ** C10 *)

(** C10: before any call of [set_length] the default length is [10], and a
    digit policy or an upper-letter policy constructed without an explicit
    length then has length [10]. *)
Theorem C10_initial_default_length :
  password_default_length.length password_default_length.initial = 10
  /\ length (digit_generator None password_default_length.initial) = Ret 10
  /\ length (upper_letter_generator None password_default_length.initial)
     = Ret 10.
Proof. repeat split. Qed.

(** * Further properties *)

(** ** Induction on trees of generators *)

Lemma password_generator_tree_ind (P : password_generator -> Prop) :
  P plain_generator ->
  (forall len, P (basic_generator len)) ->
  (forall len, P (digit len)) ->
  (forall len, P (symbol len)) ->
  (forall len, P (upper_letter len)) ->
  (forall len, P (lower_letter len)) ->
  (forall generators, Forall P generators -> P (composite generators)) ->
  forall g, P g.
Proof.
  intros Hp Hb Hd Hs Hu Hl Hc. fix IH 1.
  intros [ | len | len | len | len | len | generators];
    [exact Hp | apply Hb | apply Hd | apply Hs | apply Hu | apply Hl | ].
  apply Hc. induction generators as [|g generators IHg]; constructor.
  - apply IH.
  - exact IHg.
Qed.

(** ** random_string, whatever the alphabet *)

Lemma distribution_max_le (chars : str) :
  size chars <= SIZE_MAX ->
  0 <= distribution_max chars ->
  1 <= size chars /\ distribution_max chars <= size chars - 1.
Proof.
  unfold distribution_max, SIZE_MAX. intros Hs Hb.
  pose proof (size_nonneg chars) as Hn.
  destruct (Z.eq_dec (size chars) 0) as [E|E].
  - rewrite E in Hb. vm_compute in Hb. exfalso. apply Hb. reflexivity.
  - rewrite to_size_t_small in * by (unfold SIZE_MAX; lia).
    unfold to_int in *.
    pose proof (Z.mod_le (size chars - 1 + 2 ^ 31) (2 ^ 32)). lia.
Qed.

Lemma pick_ret_in (chars : str) (gen gen' : entropy) (c : ascii) :
  size chars <= SIZE_MAX ->
  0 <= distribution_max chars ->
  pick chars gen = Ret (c, gen') ->
  In c chars.
Proof.
  intros Hs Hb H. destruct (distribution_max_le chars Hs Hb) as [H1 Hle].
  unfold pick, draw in H.
  destruct (at_index_inside chars (gen 0%nat mod (distribution_max chars + 1)))
    as (c' & Ec & Hin).
  - pose proof (Z.mod_pos_bound (gen 0%nat) (distribution_max chars + 1)). lia.
  - rewrite Ec in H. simpl in H. inversion H; subst. exact Hin.
Qed.

(** A loop that ends with a string appended one character of the alphabet
    at each turn, and never went beyond [max_size]. *)
Lemma random_string_loop_inv (chars : str) (n : N)
  (x : outcome (str * entropy)) (s : str) (gen : entropy) :
  size chars <= SIZE_MAX ->
  0 <= distribution_max chars ->
  N.iter n (random_string_step chars) x = Ret (s, gen) ->
  exists s0 gen0 t,
    x = Ret (s0, gen0) /\ s = s0 ++ t /\ size t = Z.of_N n
    /\ Forall (fun c => In c chars) t
    /\ (size s0 <= max_size -> size s <= max_size).
Proof.
  intros Hs Hb. revert s gen.
  induction n as [|n IH] using N.peano_ind; intros s gen H.
  - simpl in H. exists s, gen, []. rewrite app_nil_r.
    repeat split; auto.
  - rewrite N.iter_succ in H. unfold random_string_step at 1 in H.
    destruct (N.iter n (random_string_step chars) x) as [[s1 gen1]| |] eqn:E;
      simpl in H; try discriminate.
    destruct (IH s1 gen1 eq_refl) as (s0 & gen0 & t & Hx & Hs1 & Ht & Hin & Hm).
    destruct (pick chars gen1) as [[c gen2]| |] eqn:Ec; simpl in H;
      try discriminate.
    unfold push_back in H. destruct (size s1 <? max_size) eqn:El;
      simpl in H; try discriminate.
    apply Z.ltb_lt in El. inversion H; subst.
    exists s0, gen0, (t ++ [c]). rewrite app_assoc.
    repeat split; auto.
    + rewrite size_app, Ht. change (size [c]) with 1. lia.
    + apply Forall_app. split; [exact Hin|]. repeat constructor.
      eapply pick_ret_in; eassumption.
    + intros _. rewrite size_app. change (size [c]) with 1. lia.
Qed.

Lemma random_string_ret (len : Z) (chars : str) (rd gen : entropy) (s : str) :
  size chars <= SIZE_MAX ->
  random_string len chars rd = Ret (s, gen) ->
  size s = 1 + to_size_t (len - 1)
  /\ size s <= max_size
  /\ Forall (fun c => In c chars) s.
Proof.
  intros Hs H. unfold random_string in H.
  destruct (distribution_max chars <? 0) eqn:Eb; [discriminate|].
  apply Z.ltb_ge in Eb.
  apply (random_string_loop_inv chars _ _ _ _ Hs Eb) in H.
  destruct H as (s0 & gen0 & t & Hx & -> & Ht & Hin & Hm).
  destruct (pick chars rd) as [[c gen1]| |] eqn:Ec; simpl in Hx;
    try discriminate.
  inversion Hx; subst.
  assert (Hn : 0 <= to_size_t (len - 1)).
  { unfold to_size_t. pose proof (Z.mod_pos_bound (len - 1) (2 ^ 64)). lia. }
  split; [|split].
  - rewrite size_app, Ht. change (size [c]) with 1. rewrite Z2N.id; lia.
  - apply Hm. change (size [c]) with 1. unfold max_size, SIZE_MAX. lia.
  - apply Forall_app. split; [|exact Hin]. repeat constructor.
    eapply pick_ret_in; eassumption.
Qed.

(** ** The steps of composite_password_generator::generate, read backwards *)

Lemma generate_composite_ret (generators : list password_generator)
  (gen gen' : entropy) (s : str) :
  generate (composite generators) gen = Ret (s, gen') ->
  exists pas_len generated_strings gen1 concatenated_string password gen2,
    length (composite generators) = Ret pas_len
    /\ generate_each generate generators gen = Ret (generated_strings, gen1)
    /\ Z.of_nat (List.length generated_strings) < pas_len
    /\ concatenate generated_strings = Ret concatenated_string
    /\ random_string
         (to_size_t (pas_len - Z.of_nat (List.length generated_strings)))
         concatenated_string gen1 = Ret (password, gen2)
    /\ append_samples generated_strings password gen2 = Ret (s, gen').
Proof.
  rewrite generate_composite. intros H.
  destruct (length (composite generators)) as [pas_len| |] eqn:EL;
    cbn [bind] in H; try discriminate.
  destruct (generate_each generate generators gen) as [[ss gen1]| |] eqn:Ess;
    cbn [bind] in H; try discriminate.
  cbv zeta in H.
  destruct (pas_len <=? Z.of_nat (List.length ss)) eqn:Ek; try discriminate.
  apply Z.leb_gt in Ek.
  destruct (concatenate ss) as [cs| |] eqn:Ecs; cbn [bind] in H;
    try discriminate.
  destruct (random_string _ cs gen1) as [[pw gen2]| |] eqn:Ef; cbn [bind] in H;
    try discriminate.
  exists pas_len, ss, gen1, cs, pw, gen2.
  split; [reflexivity|]. split; [reflexivity|]. split; [exact Ek|].
  split; [exact Ecs|]. split; [exact Ef | exact H].
Qed.

Lemma concatenate_acc_ret (generated_strings : list str) :
  forall a cs : str,
    size a <= max_size ->
    fold_left
      (fun acc s => concatenated_string <- acc ;; append concatenated_string s)
      generated_strings (Ret a) = Ret cs ->
    cs = a ++ List.concat generated_strings /\ size cs <= max_size.
Proof.
  induction generated_strings as [|s ss IH]; intros a cs Ha H; simpl in H.
  - inversion H; subst. simpl. rewrite app_nil_r. auto.
  - unfold append in H. destruct (size a + size s <=? max_size) eqn:E.
    + apply Z.leb_le in E. destruct (IH (a ++ s) cs) as [-> Hm].
      * rewrite size_app. exact E.
      * exact H.
      * simpl. rewrite app_assoc. auto.
    + rewrite fold_left_throw in H by reflexivity. discriminate.
Qed.

Lemma concatenate_ret (generated_strings : list str) (cs : str) :
  concatenate generated_strings = Ret cs ->
  cs = List.concat generated_strings /\ size cs <= max_size.
Proof.
  intros H. apply (concatenate_acc_ret generated_strings [] cs) in H.
  - exact H.
  - change (size []) with 0. unfold max_size, SIZE_MAX. lia.
Qed.


(** The samples appended to the password: one string per child, returned by
    [random_string(1, str)]. *)
Lemma append_samples_inv (generated_strings : list str) :
  forall (password : str) (gen gen' : entropy) (s : str),
    append_samples generated_strings password gen = Ret (s, gen') ->
    exists samples : list str,
      s = password ++ List.concat samples
      /\ Forall2 (fun smp str => exists g g', random_string 1 str g = Ret (smp, g'))
           samples generated_strings.
Proof.
  induction generated_strings as [|t ts IH]; intros password gen gen' s H.
  - inversion H. exists []. simpl. rewrite app_nil_r. split; [reflexivity|].
    constructor.
  - rewrite append_samples_cons in H.
    destruct (random_string 1 t gen) as [[c g]| |] eqn:Ec; cbn [bind] in H;
      try discriminate.
    unfold append in H.
    destruct (size password + size c <=? max_size); cbn [bind] in H;
      try discriminate.
    destruct (IH _ _ _ _ H) as (samples & -> & HF).
    exists (c :: samples). simpl. rewrite app_assoc. split; [reflexivity|].
    constructor; [eauto | exact HF].
Qed.



Lemma samples_size (samples generated_strings : list str) :
  Forall (fun str => size str <= SIZE_MAX) generated_strings ->
  Forall2 (fun smp str => exists g g', random_string 1 str g = Ret (smp, g'))
    samples generated_strings ->
  size (List.concat samples) = Z.of_nat (List.length generated_strings)
  /\ Forall2 (fun smp str => Forall (fun c => In c str) smp)
       samples generated_strings.
Proof.
  intros Hsz H. induction H as [|smp str smps strs (g & g' & E) _ IH].
  - split; [reflexivity | constructor].
  - inversion Hsz as [|? ? Hs Hrest]; subst.
    destruct (IH Hrest) as [IH1 IH2].
    destruct (random_string_ret 1 str g g' smp Hs E) as (Hsmp & _ & Hin).
    split.
    + simpl List.concat. rewrite size_app, IH1, Hsmp.
      change (to_size_t (1 - 1)) with 0.
      cbn [List.length]. lia.
    + constructor; assumption.
Qed.

(** ** What generate returns, for every tree of generators *)

Lemma leaf_generate (p : password_generator) (gen : entropy) :
  concrete_policy p = true ->
  exists chars,
    allowed_chars p = Ret chars /\ alphabet_ok chars
    /\ generate p gen = random_string (leaf_length p) chars gen.
Proof.
  intros Hp. destruct (concrete_policy_alphabet p Hp) as (chars & Ea & Hok).
  exists chars. split; [exact Ea|]. split; [exact Hok|].
  destruct p; simpl in Hp; try discriminate;
    cbn [generate leaf_length]; rewrite Ea; reflexivity.
Qed.

Lemma generate_leaf_ret (p : password_generator) (gen gen' : entropy) (s : str) :
  (forall generators, p <> composite generators) ->
  generate p gen = Ret (s, gen') ->
  concrete_policy p = true.
Proof.
  intros Hc H. destruct p; try reflexivity; try discriminate.
  exfalso. eapply Hc. reflexivity.
Qed.

Lemma alphabet_ok_size (chars : str) : alphabet_ok chars -> size chars <= SIZE_MAX.
Proof. unfold alphabet_ok, SIZE_MAX. lia. Qed.

(** X4: whenever [generate()] returns, the string has exactly [length()]
    characters, for every generator whose length is a [size_t]; and it
    returns only when this length is at least [1]. *)
Theorem generate_returns_length (g : password_generator)
  (gen gen' : entropy) (s : str) (l : Z) :
  generate g gen = Ret (s, gen') ->
  length g = Ret l ->
  0 <= l <= SIZE_MAX ->
  size s = l /\ 1 <= l.
Proof.
  intros H Hl Hr.
  assert (Hcases : concrete_policy g = true \/ exists generators, g = composite generators).
  { destruct g; try (left; reflexivity); try discriminate.
    right. eexists. reflexivity. }
  destruct Hcases as [Hp | [generators ->]].
  - destruct (leaf_generate g gen Hp) as (chars & _ & Hok & E).
    rewrite E in H.
    assert (El : leaf_length g = l).
    { destruct g; simpl in Hp; try discriminate;
        cbn [length] in Hl; cbn [leaf_length]; congruence. }
    rewrite El in H.
    destruct (random_string_ret l chars gen gen' s (alphabet_ok_size _ Hok) H)
      as (Hs & Hm & _).
    destruct (Z.eq_dec l 0) as [->|Hne].
    + rewrite to_size_t_underflow in Hs. unfold max_size in Hm. lia.
    + rewrite to_size_t_small in Hs by lia. lia.
  - apply generate_composite_ret in H.
    destruct H as (pas_len & ss & gen1 & cs & pw & gen2
                   & EL & Ess & Hk & Ecs & Ef & Ea).
    rewrite Hl in EL. inversion EL; subst pas_len.
    destruct (concatenate_ret ss cs Ecs) as [-> Hcs].
    destruct (random_string_ret _ _ _ _ _ Hcs Ef) as (Hpw & _ & _).
    destruct (append_samples_inv ss pw gen2 gen' s Ea) as (samples & -> & HF).
    destruct (samples_size samples ss) as [Hsm _]; [|exact HF|].
    { apply Forall_forall. intros str Hin.
      pose proof (size_concat_member ss str Hin). unfold max_size in Hcs. lia. }
    pose proof (Zle_0_nat (List.length ss)) as Hk0.
    rewrite size_app, Hsm, Hpw.
    rewrite (to_size_t_small (l - Z.of_nat (List.length ss))) by lia.
    rewrite to_size_t_small by lia. lia.
Qed.

(** X4, witness: a nested composite. *)
Lemma generate_returns_length_witness :
  exists s,
    returned (generate (composite [digit 7; composite [symbol 3; lower_letter 2]])
                sample_entropy) = Some s
    /\ size s = 7 /\ 1 <= 7.
Proof.
  eexists. split; [vm_compute; reflexivity|].
  eapply (generate_returns_length
            (composite [digit 7; composite [symbol 3; lower_letter 2]])
            sample_entropy).
  - cbv. reflexivity.
  - reflexivity.
  - unfold SIZE_MAX. lia.
Defined.

Lemma characters_child (generators : list password_generator)
  (p : password_generator) (c : ascii) :
  In p generators ->
  In c (characters p) ->
  In c (characters (composite generators)).
Proof.
  unfold characters. cbn [leaves]. intros Hp Hc.
  apply in_flat_map in Hc. destruct Hc as (leaf & Hleaf & Hc).
  apply in_flat_map. exists leaf. split; [|exact Hc].
  apply in_flat_map. exists p. auto.
Qed.

Lemma generate_in_characters (g : password_generator) :
  forall (gen gen' : entropy) (s : str),
    generate g gen = Ret (s, gen') ->
    Forall (fun c => In c (characters g)) s.
Proof.
  induction g as [ | len | len | len | len | len | generators IH]
    using password_generator_tree_ind; intros gen gen' s H;
    try discriminate;
    try (cbn [generate allowed_chars bind] in H;
         apply random_string_ret in H; [|vm_compute; discriminate];
         destruct H as (_ & _ & Hin);
         eapply Forall_impl; [|exact Hin];
         intros c Hc; unfold characters, alphabet_of; cbn [leaves flat_map allowed_chars];
         apply in_or_app; left; exact Hc).
  apply generate_composite_ret in H.
  destruct H as (pas_len & ss & gen1 & cs & pw & gen2
                 & EL & Ess & Hk & Ecs & Ef & Ea).
  destruct (concatenate_ret ss cs Ecs) as [-> Hcs].
  assert (Hss : Forall (fun str => Forall (fun c => In c (characters (composite generators))) str) ss).
  { apply generate_each_ret in Ess. clear -Ess IH.
    induction Ess as [|p str ps strs (g & g' & E) _ IHss]; [constructor|].
    inversion IH as [|? ? Hp Hps]; subst. constructor.
    - eapply Forall_impl; [|exact (Hp g g' str E)].
      intros c Hc. eapply characters_child; [left; reflexivity | exact Hc].
    - eapply Forall_impl; [|exact (IHss Hps)].
      intros str' Hstr'. eapply Forall_impl; [|exact Hstr'].
      intros c Hc. unfold characters in *. cbn [leaves flat_map] in *.
      rewrite flat_map_app. apply in_or_app. right. exact Hc. }
  assert (Hcat : Forall (fun c => In c (characters (composite generators)))
                   (List.concat ss)).
  { clear -Hss. induction Hss; simpl; [constructor|].
    apply Forall_app. split; assumption. }
  destruct (random_string_ret _ _ _ _ _ Hcs Ef) as (_ & _ & Hpw).
  destruct (append_samples_inv ss pw gen2 gen' s Ea) as (samples & -> & HF).
  destruct (samples_size samples ss) as [_ Hsm]; [|exact HF|].
  { apply Forall_forall. intros str Hin.
    pose proof (size_concat_member ss str Hin). unfold max_size in Hcs. lia. }
  rewrite Forall_forall in Hcat.
  apply Forall_app. split.
  - eapply Forall_impl; [|exact Hpw]. intros c Hc. apply Hcat. exact Hc.
  - clear -Hsm Hss. induction Hsm as [|smp str smps strs Hin _ IHsm];
      simpl; [constructor|].
    inversion Hss as [|? ? Hstr Hrest]; subst.
    apply Forall_app. split; [|apply IHsm; exact Hrest].
    rewrite Forall_forall in *. intros c Hc. apply Hstr. apply Hin. exact Hc.
Qed.

(** X5: every character that [generate()] returns is allowed by a policy of the
    tree: neither the filler nor the samples bring in any other character. *)
Theorem generate_characters (g : password_generator) :
  forall (gen gen' : entropy) (s : str),
    generate g gen = Ret (s, gen') ->
    Forall (fun c => In c (characters g)) s.
Proof.
  intros gen gen' s H. eapply generate_in_characters. exact H.
Qed.

(** X5, witness: the password of two policies is made of digits and lower-case
    letters of the list. *)
Lemma generate_characters_witness :
  exists s,
    returned (generate (composite [digit 3; lower_letter 2]) sample_entropy)
    = Some s
    /\ Forall (fun c => In c (list_ascii_of_string "0123456789abcdefghklmnioprst"))
         s.
Proof.
  eexists. split; [vm_compute; reflexivity|].
  eapply (generate_characters (composite [digit 3; lower_letter 2])
            sample_entropy).
  cbv. reflexivity.
Defined.

(** ** length, for every tree of generators *)

Lemma max_length_app (l1 l2 : list Z) :
  max_length (l1 ++ l2) = Z.max (max_length l1) (max_length l2).
Proof.
  induction l1 as [|x l1 IH]; unfold max_length in *; simpl.
  - pose proof (max_length_nonneg l2). unfold max_length in *. lia.
  - rewrite IH. lia.
Qed.

Lemma find_max_throw (e : exception) (p_length : outcome Z) :
  find_max (Throw e) p_length = Throw e.
Proof. reflexivity. Qed.

Lemma length_tree (g : password_generator) :
  if existsb is_plain (leaves g)
  then length g = Throw cannot_return_length
  else exists l,
      length g = Ret l
      /\ Z.max 0 l = max_length (map leaf_length (leaves g)).
Proof.
  induction g as [ | len | len | len | len | len | generators IH]
    using password_generator_tree_ind;
    try (cbn; eexists; split; [reflexivity | unfold max_length; simpl; lia]).
  - reflexivity.
  - cbn [leaves length].
    assert (Hfold : forall a, 0 <= a ->
      if existsb is_plain (flat_map leaves generators)
      then fold_left (fun len p => find_max len (length p)) generators (Ret a)
           = Throw cannot_return_length
      else fold_left (fun len p => find_max len (length p)) generators (Ret a)
           = Ret (Z.max a (max_length (map leaf_length (flat_map leaves generators))))).
    { induction IH as [|p ps Hp _ IHps]; intros a Ha.
      - cbn. f_equal. lia.
      - cbn [flat_map fold_left]. rewrite existsb_app, map_app, max_length_app.
        destruct (existsb is_plain (leaves p)).
        + rewrite Hp, orb_true_l.
          apply fold_left_throw. intros b. apply find_max_throw.
        + destruct Hp as (l & El & Hl). rewrite El, find_max_ret, orb_false_l.
          specialize (IHps (Z.max a l)).
          destruct (existsb is_plain (flat_map leaves ps)).
          * apply IHps. lia.
          * rewrite IHps by lia. f_equal. lia. }
    specialize (Hfold 0 (Z.le_refl 0)).
    destruct (existsb is_plain (flat_map leaves generators)).
    + exact Hfold.
    + eexists. split; [exact Hfold|].
      pose proof (max_length_nonneg
                    (map leaf_length (flat_map leaves generators))). lia.
Qed.

Lemma length_composite_tree (generators : list password_generator) :
  length (composite generators)
  = if existsb is_plain (leaves (composite generators))
    then Throw cannot_return_length
    else Ret (max_length (map leaf_length (leaves (composite generators)))).
Proof.
  pose proof (length_tree (composite generators)) as H.
  destruct (existsb is_plain (leaves (composite generators))).
  - exact H.
  - destruct H as (l & El & Hl). rewrite El. f_equal.
    assert (0 <= l); [|lia].
    cbn [length] in El.
    assert (Hacc : forall gs a r,
               0 <= a ->
               fold_left (fun len p => find_max len (length p)) gs (Ret a) = Ret r ->
               0 <= r).
    { clear. induction gs as [|p ps IH]; intros a r Ha H; cbn [fold_left] in H.
      - inversion H; subst. exact Ha.
      - destruct (length p) as [m| |].
        + rewrite find_max_ret in H. eapply (IH (Z.max a m)); [lia | exact H].
        + cbn [find_max bind] in H.
          rewrite fold_left_throw in H; [discriminate | reflexivity].
        + cbn [find_max bind] in H.
          rewrite fold_left_undefined in H; [discriminate | reflexivity]. }
    eapply Hacc; [|exact El]. lia.
Qed.



(** ** The exceptions of generate *)



(** ** add *)

Lemma add_all_throw (ptrs : list password_generator) (e : exception) :
  fold_left (fun acc ptr => g <- acc ;; add g ptr) ptrs (Throw e) = Throw e.
Proof. apply fold_left_throw. reflexivity. Qed.

(** X9: registering never fails on a composite, and keeps the children in the
    order of the calls, after those the composite already had; on any other
    generator the first call throws. *)
Theorem add_all_registers :
  (forall generators ptrs,
      add_all (composite generators) ptrs = Ret (composite (generators ++ ptrs)))
  /\ (forall g ptr ptrs,
         (forall generators, g <> composite generators) ->
         add_all g (ptr :: ptrs) = Throw cannot_add).
Proof.
  split.
  - intros generators ptrs. revert generators.
    induction ptrs as [|ptr ptrs IH]; intros generators.
    + unfold add_all. simpl. rewrite app_nil_r. reflexivity.
    + unfold add_all in *. cbn [fold_left bind add].
      rewrite IH, <- app_assoc. reflexivity.
  - intros g ptr ptrs Hg. unfold add_all. cbn [fold_left bind].
    destruct g; try apply add_all_throw.
    exfalso. eapply Hg. reflexivity.
Qed.

(** X9, witness: two policies registered in an empty composite; a policy
    registered in a digit policy. *)
Lemma add_all_registers_witness :
  add_all composite_password_generator [digit 4; symbol 5]
  = Ret (composite [digit 4; symbol 5])
  /\ add_all (digit 4) [symbol 5] = Throw cannot_add.
Proof.
  split.
  - apply (proj1 add_all_registers [] [digit 4; symbol 5]).
  - apply (proj2 add_all_registers (digit 4) (symbol 5) []).
    intros generators. discriminate.
Defined.




(** ** Sequences of set_length *)

Lemma set_length_state (arg : Z) (st : password_default_length.state) :
  snd (password_default_length.set_length arg st)
  = if to_size_t arg =? 0 then st else to_size_t arg.
Proof.
  unfold password_default_length.set_length.
  pose proof (Z.mod_pos_bound arg (2 ^ 64)) as Hb. fold (to_size_t arg) in Hb.
  destruct (to_size_t arg =? 0) eqn:E.
  - apply Z.eqb_eq in E. rewrite E. reflexivity.
  - apply Z.eqb_neq in E.
    replace (to_size_t arg <=? 0) with false by (symmetry; apply Z.leb_gt; lia).
    reflexivity.
Qed.

Lemma last_cons_default (l : list Z) (v d : Z) : last (v :: l) d = last l v.
Proof.
  revert v d. induction l as [|x l IH]; intros v d; [reflexivity|].
  change (last (v :: x :: l) d) with (last (x :: l) d).
  rewrite (IH x d), (IH x v). reflexivity.
Qed.

Lemma set_lengths_accepted (args : list Z) (st : password_default_length.state) :
  set_lengths args st = last (accepted args) st
  /\ (1 <= st <= SIZE_MAX -> 1 <= set_lengths args st <= SIZE_MAX).
Proof.
  revert st. induction args as [|arg args IH]; intros st.
  - split; [reflexivity | auto].
  - unfold set_lengths, accepted in *. cbn [fold_left map filter].
    rewrite set_length_state.
    pose proof (Z.mod_pos_bound arg (2 ^ 64)) as Hb. fold (to_size_t arg) in Hb.
    destruct (to_size_t arg =? 0) eqn:E; cbn [negb].
    + apply IH.
    + apply Z.eqb_neq in E. destruct (IH (to_size_t arg)) as [IH1 IH2].
      split.
      * rewrite IH1, last_cons_default. reflexivity.
      * intros _. apply IH2. unfold SIZE_MAX. lia.
Qed.

(** X11: after any sequence of calls of [set_length] (the failing ones caught),
    the default length is the last argument that was accepted, as converted
    to [size_t], or the length before the calls when none was; it stays
    between [1] and [SIZE_MAX]. *)
Theorem set_lengths_last (args : list Z) (st : password_default_length.state) :
  set_lengths args st = last (accepted args) st
  /\ (1 <= st <= SIZE_MAX -> 1 <= set_lengths args st <= SIZE_MAX).
Proof.
  apply set_lengths_accepted.
Qed.

(** X11, witness: [set_length(16)], a call with [0] that fails, a call with
    [-1]. *)
Lemma set_lengths_last_witness :
  set_lengths [16; 0] password_default_length.initial = 16
  /\ 1 <= set_lengths [16; 0; -1] password_default_length.initial <= SIZE_MAX.
Proof.
  split.
  - apply (proj1 (set_lengths_last [16; 0] password_default_length.initial)).
  - apply (proj2 (set_lengths_last [16; 0; -1] password_default_length.initial)).
    unfold SIZE_MAX. vm_compute. split; discriminate.
Defined.

(** ** Policies constructed with the default length *)


(** ** Composites of concrete policies: the trailing block *)

Lemma trailing_block (generators : list password_generator)
  (lengths : list Z) (gen : entropy) :
  Forall (fun p => concrete_policy p = true) generators ->
  Forall2 (fun p l => length p = Ret l) generators lengths ->
  Forall (fun l => 1 <= l) lengths ->
  sum_lengths lengths <= 2 ^ 31 ->
  Z.of_nat (List.length generators) < max_length lengths ->
  exists filler tail gen',
    generate (composite generators) gen = Ret (filler ++ tail, gen')
    /\ size filler = max_length lengths - Z.of_nat (List.length generators)
    /\ Forall (fun c => In c (characters (composite generators))) filler
    /\ Forall2 (fun c p => In c (alphabet_of p)) tail generators.
Proof.
  intros Hc Hl H1 Hsum Hk.
  assert (Hr : Forall (fun l => 1 <= l <= SIZE_MAX) lengths).
  { pose proof (sum_lengths_member lengths H1) as Hm.
    rewrite Forall_forall in *. intros l Hin.
    specialize (H1 l Hin). specialize (Hm l Hin). unfold SIZE_MAX. lia. }
  destruct (policies_generate_each generators lengths Hc Hl Hr gen)
    as (ss & gen1 & Ess & Hss).
  destruct (generate_composite_ok generators gen gen1 (max_length lengths) ss)
    as (filler & tail & gen2 & E & Hf & _ & Ht).
  - apply length_composite_ret. exact Hl.
  - exact Ess.
  - split; [exact Hk|].
    apply max_length_bound; [unfold SIZE_MAX; lia|].
    eapply Forall_impl; [|exact Hr]. intros; simpl in *; lia.
  - rewrite (fragments_size _ _ Hl _ Hss). exact Hsum.
  - exists filler, tail, gen2. split; [exact E|]. split; [exact Hf|]. split.
    + pose proof (generate_in_characters _ _ _ _ E) as Hall.
      apply Forall_app in Hall. apply Hall.
    + clear -Hss Ht. revert tail Ht.
      induction Hss as [|p s ps ss Hp _ IH]; intros tail Ht;
        inversion Ht as [|c s' cs ss' Hcs Hrest]; subst; constructor.
      * destruct Hp as (l & chars & _ & _ & Ea & Hin).
        unfold alphabet_of. rewrite Ea.
        rewrite Forall_forall in Hin. apply Hin. exact Hcs.
      * apply IH. exact Hrest.
Qed.

(** X13: the password of a composite of concrete policies ends with one
    character of the alphabet of each child, in registration order; the
    characters before them are allowed by some child. *)
Theorem password_trailing_block (generators : list password_generator)
  (lengths : list Z) (gen : entropy) :
  Forall (fun p => concrete_policy p = true) generators ->
  Forall2 (fun p l => length p = Ret l) generators lengths ->
  Forall (fun l => 1 <= l) lengths ->
  sum_lengths lengths <= 2 ^ 31 ->
  Z.of_nat (List.length generators) < max_length lengths ->
  exists filler tail gen',
    generate (composite generators) gen = Ret (filler ++ tail, gen')
    /\ size filler = max_length lengths - Z.of_nat (List.length generators)
    /\ Forall (fun c => In c (characters (composite generators))) filler
    /\ Forall2 (fun c p => In c (alphabet_of p)) tail generators.
Proof.
  intros Hc Hl H1 Hsum Hk. apply trailing_block; assumption.
Qed.

(** X13, witness: a digit policy and a lower-letter policy. *)
Lemma password_trailing_block_witness :
  exists filler tail gen',
    generate (composite [digit 3; lower_letter 4]) sample_entropy
    = Ret (filler ++ tail, gen')
    /\ size filler = 2
    /\ Forall2 (fun c p => In c (alphabet_of p)) tail [digit 3; lower_letter 4].
Proof.
  destruct (password_trailing_block [digit 3; lower_letter 4] [3; 4]
              sample_entropy) as (filler & tail & gen' & E & Hf & _ & Ht).
  - repeat constructor.
  - repeat constructor.
  - repeat constructor; lia.
  - unfold sum_lengths. simpl. lia.
  - unfold max_length. simpl. lia.
  - exists filler, tail, gen'. auto.
Defined.

(** ** The scenario of main *)

Lemma main_scenario_16 : main_scenario 16 = main_generator.
Proof. reflexivity. Qed.

(** X14: with a default length [n] from [1] to [2^30 - 12] in place of its [16],
    [main] builds a composite of length [max n 12], since the symbol and
    lower-letter policies keep their length [12], and each of its calls of
    [generate()] returns a password of [max n 12] characters that ends with a
    digit, a symbol, an upper-case and a lower-case letter; with [0] the
    scenario ends with the [out_of_range] of [set_length]. *)
Theorem main_scenario_password :
  (forall n,
      1 <= n <= 2 ^ 30 - 12 ->
      exists g,
        main_scenario n = Ret g
        /\ length g = Ret (Z.max n 12)
        /\ forall gen, exists filler tail gen',
            generate g gen = Ret (filler ++ tail, gen')
            /\ size (filler ++ tail) = Z.max n 12
            /\ Forall2 (fun c chars => In c (list_ascii_of_string chars)) tail
                 ["0123456789"; "-/.;#@%)*"; "ABCDEFGHKLMNIOPRST";
                  "abcdefghklmnioprst"]%string)
  /\ main_scenario 0
     = Throw (out_of_range "Password default length: invalid length value").
Proof.
  split; [|reflexivity].
  intros n Hn.
  assert (Est : password_default_length.set_length n
                  password_default_length.initial = (Ret tt, n)).
  { unfold password_default_length.set_length.
    rewrite to_size_t_small by (unfold SIZE_MAX; lia).
    replace (n <=? 0) with false by (symmetry; apply Z.leb_gt; lia).
    reflexivity. }
  exists (composite [digit n; symbol 12; upper_letter n; lower_letter 12]).
  split.
  { unfold main_scenario. rewrite Est. reflexivity. }
  assert (Hmax : max_length [n; 12; n; 12] = Z.max n 12).
  { unfold max_length. simpl. lia. }
  split.
  { rewrite (length_composite_ret _ [n; 12; n; 12]) by (repeat constructor).
    rewrite Hmax. reflexivity. }
  intros gen.
  destruct (trailing_block
              [digit n; symbol 12; upper_letter n; lower_letter 12]
              [n; 12; n; 12] gen) as (filler & tail & gen' & E & Hf & _ & Ht).
  - repeat constructor.
  - repeat constructor.
  - repeat constructor; lia.
  - unfold sum_lengths. cbn [fold_right]. lia.
  - rewrite Hmax. cbn [List.length]. lia.
  - exists filler, tail, gen'. split; [exact E|]. split.
    + rewrite size_app, Hf, Hmax.
      rewrite <- (Forall2_length Ht). unfold size. lia.
    + repeat match goal with
             | H : Forall2 _ _ (_ :: _) |- _ => inversion H; clear H; subst
             | H : Forall2 _ _ [] |- _ => inversion H; clear H; subst
             end.
      constructor; [assumption|]. constructor; [assumption|].
      constructor; [assumption|]. constructor; [assumption|]. constructor.
Qed.

(** X14, witness: the default length [8], shorter than the fixed [12]. *)
Lemma main_scenario_password_witness :
  exists g, main_scenario 8 = Ret g /\ length g = Ret 12.
Proof.
  destruct (proj1 main_scenario_password 8) as (g & Eg & El & _).
  - lia.
  - exists g. split; [exact Eg | exact El].
Defined.

(** ** random_string: which characters, from which draws *)

Lemma pick_drawn (chars : str) (gen : entropy) :
  alphabet_ok chars ->
  pick chars gen = Ret (drawn chars gen 0, fun n => gen (S n)).
Proof.
  intros Hok. unfold pick, draw, drawn.
  rewrite (distribution_max_ok chars Hok).
  replace (size chars - 1 + 1) with (size chars) by lia.
  unfold alphabet_ok in Hok.
  pose proof (Z.mod_pos_bound (gen 0%nat) (size chars)) as Hb.
  unfold at_index.
  replace ((0 <=? gen 0%nat mod size chars)
           && (gen 0%nat mod size chars <? size chars)) with true
    by (symmetry; apply andb_true_iff; split;
        [apply Z.leb_le | apply Z.ltb_lt]; lia).
  rewrite (nth_error_nth' chars Ascii.zero) by (unfold size in *; lia).
  reflexivity.
Qed.

Lemma random_string_loop_drawn (chars : str) (n : N) :
  alphabet_ok chars ->
  forall (s : str) (gen : entropy),
    size s + Z.of_N n <= max_size ->
    exists gen',
      N.iter n (random_string_step chars) (Ret (s, gen))
      = Ret (s ++ map (drawn chars gen) (seq 0 (N.to_nat n)), gen')
      /\ forall m, gen' m = gen (N.to_nat n + m)%nat.
Proof.
  intros Hok. induction n as [|n IH] using N.peano_ind; intros s gen Hsz.
  - exists gen. simpl. rewrite app_nil_r. auto.
  - rewrite N.iter_succ.
    destruct (IH s gen) as (gen1 & E & Hg); [lia|].
    rewrite E. unfold random_string_step at 1. cbn [bind].
    rewrite (pick_drawn chars gen1 Hok). cbn [bind]. unfold push_back.
    replace (size (s ++ map (drawn chars gen) (seq 0 (N.to_nat n))) <? max_size)
      with true
      by (symmetry; apply Z.ltb_lt; rewrite size_app; unfold size at 2;
          rewrite length_map, length_seq; lia).
    cbn [bind].
    assert (Ed : drawn chars gen1 0 = drawn chars gen (N.to_nat n)).
    { unfold drawn. rewrite (Hg 0%nat), Nat.add_0_r. reflexivity. }
    rewrite Ed. eexists. split.
    + rewrite N2Nat.inj_succ, seq_S, map_app, app_assoc. reflexivity.
    + intros m. cbn beta. rewrite Hg, N2Nat.inj_succ.
      f_equal. lia.
Qed.

Lemma random_string_drawn (len : Z) (chars : str) (rd : entropy) :
  1 <= len <= SIZE_MAX ->
  1 <= size chars <= 2 ^ 31 ->
  exists gen,
    random_string len chars rd
    = Ret (map (drawn chars rd) (seq 0 (Z.to_nat len)), gen)
    /\ forall m, gen m = rd (Z.to_nat len + m)%nat.
Proof.
  intros Hlen Hok. unfold random_string.
  rewrite (distribution_max_ok chars Hok).
  replace (size chars - 1 <? 0) with false by (symmetry; apply Z.ltb_ge; lia).
  rewrite (pick_drawn chars rd Hok). cbn [bind].
  rewrite to_size_t_small by lia.
  destruct (random_string_loop_drawn chars (Z.to_N (len - 1)) Hok
              [drawn chars rd 0] (fun n => rd (S n))) as (gen & E & Hg).
  { change (size [drawn chars rd 0]) with 1. unfold max_size.
    rewrite Z2N.id; lia. }
  exists gen. split.
  - etransitivity; [exact E|]. f_equal. f_equal.
    replace (Z.to_nat len) with (S (N.to_nat (Z.to_N (len - 1)))) by lia.
    cbn [seq map app]. f_equal.
    rewrite <- seq_shift, map_map. reflexivity.
  - intros m. rewrite Hg.
    replace (Z.to_nat len) with (S (N.to_nat (Z.to_N (len - 1)))) by lia.
    reflexivity.
Qed.

(** X1: the [j]-th character of the string that [random_string] returns is
    selected by the [j]-th draw alone, and exactly [len] draws are made. *)
Theorem random_string_closed_form (len : Z) (chars : str) (rd : entropy) :
  1 <= len <= SIZE_MAX ->
  1 <= size chars <= 2 ^ 31 ->
  exists gen,
    random_string len chars rd
    = Ret (map (drawn chars rd) (seq 0 (Z.to_nat len)), gen)
    /\ forall m, gen m = rd (Z.to_nat len + m)%nat.
Proof.
  intros Hlen Hok. apply random_string_drawn; assumption.
Qed.

(** X1, witness: three digits, selected by the raw values [3], [10] and [17]. *)
Lemma random_string_closed_form_witness :
  exists gen,
    random_string 3 (list_ascii_of_string "0123456789") sample_entropy
    = Ret (list_ascii_of_string "307", gen)
    /\ gen 0%nat = 24.
Proof.
  destruct (random_string_closed_form 3 (list_ascii_of_string "0123456789")
              sample_entropy) as (gen & E & Hg).
  - unfold SIZE_MAX. lia.
  - unfold size. simpl. lia.
  - exists gen. split; [exact E | exact (Hg 0%nat)].
Defined.





(** X3: whenever [random_string] returns, for an alphabet and a length that
    are [size_t] values, the length was at least [1], the alphabet was not
    empty, and the string has [len] characters of the alphabet: also for the
    alphabets of more than [2^31] characters. *)
Theorem random_string_returned (len : Z) (chars : str) (rd gen : entropy)
  (s : str) :
  0 <= len <= SIZE_MAX ->
  size chars <= SIZE_MAX ->
  random_string len chars rd = Ret (s, gen) ->
  1 <= len /\ chars <> [] /\ size s = len /\ Forall (fun c => In c chars) s.
Proof.
  intros Hlen Hs H.
  pose proof (random_string_nonempty _ _ _ _ _ H) as Hne.
  destruct (random_string_ret len chars rd gen s Hs H) as (Hsz & Hm & Hin).
  assert (Hl : 1 <= len).
  { destruct (Z.eq_dec len 0) as [->|]; [|lia].
    rewrite to_size_t_underflow in Hsz. unfold max_size in Hm. lia. }
  split; [exact Hl|]. split; [|split; [|exact Hin]].
  - intros ->. destruct s; [congruence|]. inversion Hin; subst. contradiction.
  - rewrite to_size_t_small in Hsz by lia. lia.
Qed.

(** X3, witness: two symbols. *)
Lemma random_string_returned_witness :
  exists s,
    returned (random_string 2 (list_ascii_of_string "-/.;#@%)*") sample_entropy)
    = Some s
    /\ size s = 2.
Proof.
  eexists. split; [vm_compute; reflexivity|].
  eapply (random_string_returned 2 (list_ascii_of_string "-/.;#@%)*")
            sample_entropy).
  - unfold SIZE_MAX. lia.
  - unfold size, SIZE_MAX. simpl. lia.
  - cbv. reflexivity.
Defined.

(** ** length does not depend on order or nesting *)

Lemma max_length_permutation (l l' : list Z) :
  Permutation l l' -> max_length l = max_length l'.
Proof.
  induction 1 as [|x l l' _ IH|x y l|l l' l'' _ IH1 _ IH2];
    unfold max_length in *; simpl; lia.
Qed.

Lemma existsb_permutation {A : Type} (f : A -> bool) (l l' : list A) :
  Permutation l l' -> existsb f l = existsb f l'.
Proof.
  induction 1 as [|x l l' _ IH|x y l|l l' l'' _ IH1 _ IH2]; simpl.
  - reflexivity.
  - rewrite IH. reflexivity.
  - destruct (f x), (f y); reflexivity.
  - congruence.
Qed.

(** X8: [length()] of a composite depends on the policies of its tree only:
    neither the order of registration nor the way the policies are grouped
    in nested composites changes its value, or whether it throws. *)
Theorem length_leaves_permutation (generators generators' : list password_generator) :
  Permutation (leaves (composite generators)) (leaves (composite generators')) ->
  length (composite generators) = length (composite generators').
Proof.
  intros H. rewrite !length_composite_tree.
  rewrite (existsb_permutation _ _ _ H).
  rewrite (max_length_permutation _ _ (Permutation_map leaf_length H)).
  reflexivity.
Qed.

(** X8, witness: three policies, grouped and in the reverse order. *)
Lemma length_leaves_permutation_witness :
  length (composite [digit 3; composite [symbol 5; lower_letter 2]])
  = length (composite [lower_letter 2; symbol 5; digit 3]).
Proof.
  apply length_leaves_permutation.
  apply (Permutation_rev [digit 3; symbol 5; lower_letter 2]).
Defined.
